(** * etils.ecolab: cell auto-reload and in-place reload

    A shallow embedding of [etils/ecolab/cell_autoreload.py] and
    [etils/ecolab/inplace_reload.py], with the properties of the reload
    engine stated and proved over it. *)

From stdpp Require Import gmap strings list fin_maps relations.

#[local] Set Warnings "-clear-no-such-hyp".

Module CellAutoreload.

(** ** Reachability search ([_ModuleSearch]) *)

(** [dict[str, set[str]]]: module name to the names it references. *)
Abbreviation module_graph := (gmap string (gset string)).

Record _ModuleSearch := {
  _graph : module_graph;
  _cache : gmap string bool;
  _targets : gset string;
}.

(** [_ModuleSearch(targets, graph)]: the cache starts empty. *)
Definition new_search (targets : gset string) (graph : module_graph)
    : _ModuleSearch :=
  {| _graph := graph; _cache := ∅; _targets := targets |}.

(** [self._graph.get(m, set())] *)
Definition neighbours (graph : module_graph) (m : string) : gset string :=
  default ∅ (graph !! m).

(** The inner [for neighbour in ...] loop: a neighbour that is not yet in
    [visited] is added to [visited] and appended to [queue]. *)
Definition enqueue_neighbours (nbrs : list string)
    (visited : gset string) (queue : list string)
    : gset string * list string :=
  foldl (λ '(visited, queue) neighbour,
           if decide (neighbour ∈ visited) then (visited, queue)
           else ({[neighbour]} ∪ visited, queue ++ [neighbour]))
        (visited, queue) nbrs.

Inductive loop_result :=
  | Return (b : bool)
  | Continue (queue : list string) (visited : gset string).

(** One iteration of [while queue:] in [_reaches_targets]; the caller
    handles the exit of the loop on an empty queue. *)
Definition loop_body (self : _ModuleSearch)
    (queue : list string) (visited : gset string) : loop_result :=
  match queue with
  | [] => Return false
  | m :: queue =>
    match _cache self !! m with
    | Some true => Return true
    | Some false => Continue queue visited
    | None =>
      if decide (m ∈ _targets self) then Return true
      else
        let '(visited, queue) :=
          enqueue_neighbours (elements (neighbours (_graph self) m))
                             visited queue in
        Continue queue visited
    end
  end.

Fixpoint while_queue (fuel : nat) (self : _ModuleSearch)
    (queue : list string) (visited : gset string) : option bool :=
  match fuel with
  | O => None
  | S fuel =>
    match loop_body self queue visited with
    | Return b => Some b
    | Continue queue visited => while_queue fuel self queue visited
    end
  end.

(** Every name that occurs in the graph as a neighbour. *)
Definition graph_nodes (graph : module_graph) : gset string :=
  ⋃ (map_to_list graph).*2.

(** Enough iterations for any traversal from [source]: every node is
    dequeued at most once. *)
Definition search_fuel (self : _ModuleSearch) (source : string) : nat :=
  S (size ({[source]} ∪ graph_nodes (_graph self))).

Definition _reaches_targets (self : _ModuleSearch) (source : string)
    : option bool :=
  while_queue (search_fuel self source) self [source] {[source]}.

Definition reaches_targets (self : _ModuleSearch) (source : string)
    : option (bool * _ModuleSearch) :=
  ret ← _reaches_targets self source;
  Some (ret, {| _graph := _graph self;
                _cache := <[source := ret]> (_cache self);
                _targets := _targets self |}).

(** [a] references [b] directly. *)
Definition edge (graph : module_graph) (a b : string) : Prop :=
  b ∈ neighbours graph a.

(** A directed path of length zero or more leads from [a] to a target. *)
Definition reaches (graph : module_graph) (targets : gset string)
    (a : string) : Prop :=
  ∃ t, t ∈ targets ∧ rtc (edge graph) a t.

(** ** The interpreter state read by the reloader *)

(** Object identity, as [id(...)] gives it for live objects. *)
Abbreviation obj_id := nat.

(** A value bound in a module namespace: only whether it is a module
    object, and under which [__name__], matters to the reloader. *)
Inductive value :=
  | module_value (val__name__ : string)
  | other_value.

Record module := {
  module_id : obj_id;
  __name__ : string;
  (** [getattr(module, '__file__', None)] *)
  __file__ : option string;
  __dict__ : gmap string value;
}.

Inductive exception :=
  | KeyError
  | ValueError
  | ImportFailure.

Record session := {
  (** [sys.modules] *)
  sys_modules : gmap string module;
  (** [Path(f).stat().mtime]; a file that is not in the map cannot be
      stat-ed: [OSError]. *)
  stat_mtime : gmap string Z;
  (** [ip.kernel.shell.user_ns], by object identity *)
  user_ns : gmap string obj_id;
}.

(** Modelled from the spec: [module_utils.get_module_names], the module name
    resolver, whose source is not part of the files at hand. It "returns
    names of currently-loaded modules whose fully-qualified name equals, or
    (if recursive) is a dotted-prefix descendant of, one of the given
    prefixes". *)
Definition in_namespace (recursive : bool) (prefixes : list string)
    (module_name : string) : bool :=
  existsb (λ prefix,
             bool_decide (module_name = prefix)
             || (recursive && String.prefix (prefix +:+ ".") module_name))
          prefixes.

Definition get_module_names (recursive : bool)
    (registry : gmap string module) (prefixes : list string) : list string :=
  filter (λ module_name, in_namespace recursive prefixes module_name = true)
         (map_to_list registry).*1.

Definition _get_last_module_update (ip : session) (module_name : string)
    : option Z :=
  match sys_modules ip !! module_name with
  | None => None
  | Some module =>
    if decide (__name__ module = "__main__") then None
    else
      match __file__ module with
      | None => None
      | Some module_file =>
        if decide (module_file = "") then None
        else stat_mtime ip !! module_file
      end
  end.

(** The [deps] of one [source] in [_create_module_graph]: the names of the
    module objects bound in its namespace that are in [nodes]. *)
Definition module_deps (module : module) (nodes : gset string) : gset string :=
  list_to_set
    (omap (λ val,
             match val with
             | module_value val__name__ =>
               if decide (val__name__ ∈ nodes) then Some val__name__ else None
             | other_value => None
             end)
          (map_to_list (__dict__ module)).*2).

(** [None] stands for the [KeyError] of [sys.modules[source]]. *)
Definition _create_module_graph (registry : gmap string module)
    (nodes : gset string) : option module_graph :=
  foldl (λ graph source,
           graph ← graph;
           module ← registry !! source;
           Some (<[source := module_deps module nodes]> graph))
        (Some ∅) (elements nodes).

(** ** [ModuleReloader] *)

Record _ModuleInfo := {
  name : string;
  instance : obj_id;
}.

Record ModuleReloader := {
  reload : list string;
  _last_updates : gmap string (option Z);
  _globals_to_update : gmap string _ModuleInfo;
}.

(** [self._last_updates.get(module)] *)
Definition last_update (last_updates : gmap string (option Z))
    (module_name : string) : option Z :=
  default None (last_updates !! module_name).

(** [prev_mtime is None or (new_mtime is not None and new_mtime > prev_mtime)] *)
Definition is_dirty (prev_mtime new_mtime : option Z) : bool :=
  match prev_mtime, new_mtime with
  | None, _ => true
  | Some prev_mtime, Some new_mtime => bool_decide (new_mtime > prev_mtime)%Z
  | Some _, None => false
  end.

(** The body of the first loop of [_pre_run_cell_maybe_reload], for one
    module. *)
Definition check_module (ip : session)
    (state : gset string * gmap string (option Z)) (module_name : string)
    : gset string * gmap string (option Z) :=
  let '(dirty_modules, last_updates) := state in
  let prev_mtime := last_update last_updates module_name in
  let new_mtime := _get_last_module_update ip module_name in
  (if is_dirty prev_mtime new_mtime
   then {[module_name]} ∪ dirty_modules else dirty_modules,
   <[module_name := new_mtime]> last_updates).

(** The staleness check: the first loop of [_pre_run_cell_maybe_reload]. *)
Definition find_dirty_modules (ip : session) (module_names : list string)
    (last_updates : gmap string (option Z))
    : gset string * gmap string (option Z) :=
  foldl (check_module ip) (∅, last_updates) module_names.

(** [[mod for mod in reload_set if search.reaches_targets(mod)]] *)
Fixpoint modules_reaching (search : _ModuleSearch) (mods : list string)
    : option (list string) :=
  match mods with
  | [] => Some []
  | mod_ :: mods =>
    '(ret, search) ← reaches_targets search mod_;
    rest ← modules_reaching search mods;
    Some (if ret : bool then mod_ :: rest else rest)
  end.

(** The body of the loop that updates the globals of the user namespace
    after the modules have been imported again, for one recorded global.
    The loop stops at the first [KeyError] of [sys.modules[info.name]]; what
    it has written by then stays. *)
Definition update_global (registry : gmap string module)
    (modules_to_update : list string)
    (state : option exception * gmap string obj_id
             * gmap string _ModuleInfo)
    (entry : string * _ModuleInfo)
    : option exception * gmap string obj_id * gmap string _ModuleInfo :=
  let '(raised, kernel_globals, tracked) := state in
  let '(global_name, info) := entry in
  match raised with
  | Some _ => (raised, kernel_globals, tracked)
  | None =>
    if bool_decide (name info ∈ modules_to_update)
       && bool_decide (kernel_globals !! global_name = Some (instance info))
    then
      match registry !! name info with
      | None => (Some KeyError, kernel_globals, tracked)
      | Some reloaded_module =>
        (None,
         <[global_name := module_id reloaded_module]> kernel_globals,
         <[global_name :=
             {| name := name info;
                instance := module_id reloaded_module |}]> tracked)
      end
    else (None, kernel_globals, tracked)
  end.

Definition update_globals (registry : gmap string module)
    (modules_to_update : list string)
    (globals_to_update : list (string * _ModuleInfo))
    (state : option exception * gmap string obj_id
             * gmap string _ModuleInfo)
    : option exception * gmap string obj_id * gmap string _ModuleInfo :=
  foldl (update_global registry modules_to_update) state globals_to_update.

Section hook.
(** The default of the [recursive] argument of [get_module_names]. *)
Context (recursive : bool).
(** [adhoc_imports.adhoc(reload=..., reload_recursive=False)] around
    [importlib.import_module]: the registry once the given modules have
    been imported again, or the exception of a failed import. *)
Context (adhoc_reimport : gmap string module → list string
                          → exception + gmap string module).

(** [register]: records a timestamp for every watched module. *)
Definition register (self : ModuleReloader) (ip : session)
    : exception + ModuleReloader :=
  match reload self with
  | [] => inl ValueError
  | _ =>
    inr {| reload := reload self;
           _last_updates :=
             foldl (λ last_updates module_name,
                      <[module_name := _get_last_module_update ip module_name]>
                        last_updates)
                   (_last_updates self)
                   (get_module_names recursive (sys_modules ip) (reload self));
           _globals_to_update := _globals_to_update self |}
  end.

(** The staleness check of the hook on the watched modules. *)
Definition check_staleness (self : ModuleReloader) (ip : session)
    : gset string * gmap string (option Z) :=
  find_dirty_modules ip
    (get_module_names recursive (sys_modules ip) (reload self))
    (_last_updates self).

(** The reloader once the staleness check has run: the hook stores the
    timestamps it has read whether or not it goes on to reload. *)
Definition checked (self : ModuleReloader) (ip : session) : ModuleReloader :=
  {| reload := reload self;
     _last_updates := (check_staleness self ip).2;
     _globals_to_update := _globals_to_update self |}.

(** The modules the hook selects for reload; [None] stands for the
    [KeyError] of [sys.modules[source]] in [_create_module_graph]. *)
Definition select_modules_to_update (ip : session) (self : ModuleReloader)
    (dirty_modules : gset string) : option (list string) :=
  let reload_set : gset string :=
    list_to_set (get_module_names recursive (sys_modules ip) (reload self)) in
  graph ← _create_module_graph (sys_modules ip) reload_set;
  let search := new_search dirty_modules graph in
  modules_reaching search (elements reload_set).

Record hook_result := {
  raised : option exception;
  (** the modules that were reloaded, when the hook got that far *)
  modules_to_update : option (list string);
  reloader : ModuleReloader;
  ip_after : session;
}.

Definition _pre_run_cell_maybe_reload (self : ModuleReloader) (ip : session)
    : hook_result :=
  let '(dirty_modules, last_updates) := check_staleness self ip in
  let self :=
    {| reload := reload self; _last_updates := last_updates;
       _globals_to_update := _globals_to_update self |} in
  if decide (dirty_modules = ∅) then
    {| raised := None; modules_to_update := None;
       reloader := self; ip_after := ip |}
  else
    match select_modules_to_update ip self dirty_modules with
    | None =>
      {| raised := Some KeyError; modules_to_update := None;
         reloader := self; ip_after := ip |}
    | Some mods =>
      match adhoc_reimport (sys_modules ip) mods with
      | inl e =>
        {| raised := Some e; modules_to_update := Some mods;
           reloader := self; ip_after := ip |}
      | inr registry =>
        let '(raised, kernel_globals, tracked) :=
          update_globals registry mods
            (map_to_list (_globals_to_update self))
            (None, user_ns ip, _globals_to_update self) in
        {| raised := raised; modules_to_update := Some mods;
           reloader :=
             {| reload := reload self; _last_updates := last_updates;
                _globals_to_update := tracked |};
           ip_after :=
             {| sys_modules := registry; stat_mtime := stat_mtime ip;
                user_ns := kernel_globals |} |}
      end
    end.
End hook.

(** The instances of [_ModuleSearch] that a program can hold: a fresh one,
    or one on which [reaches_targets] has been called. *)
Inductive search_instance (targets : gset string) (graph : module_graph)
    : _ModuleSearch → Prop :=
  | search_fresh : search_instance targets graph (new_search targets graph)
  | search_queried self source ret self' :
      search_instance targets graph self →
      reaches_targets self source = Some (ret, self') →
      search_instance targets graph self'.

(** The traversals of [_reaches_targets self source]: the loop states
    [queue], [visited] it goes through, with the list of every node that
    has been put in the queue so far, in order. *)
Inductive traversal (self : _ModuleSearch) (source : string)
    : list string → list string → gset string → Prop :=
  | traversal_start : traversal self source [source] [source] {[source]}
  | traversal_step enqueued queue visited queue' visited' :
      traversal self source enqueued queue visited →
      loop_body self queue visited = Continue queue' visited' →
      traversal self source
        (enqueued ++ drop (length queue - 1) queue') queue' visited'.


(** ** Example sessions *)






(** Modules [a] and [b] import each other; only the file of [a] has
    changed since the timestamps were recorded. The user namespace still
    binds [a] and [c] to the recorded module objects, and [b] to something
    else. *)
Definition module_a : module :=
  {| module_id := 1; __name__ := "a"; __file__ := Some "/src/a.py";
     __dict__ := {[ "b" := module_value "b"; "x" := other_value ]} |}.

Definition module_b : module :=
  {| module_id := 2; __name__ := "b"; __file__ := Some "/src/b.py";
     __dict__ := {[ "a" := module_value "a" ]} |}.

Definition module_c : module :=
  {| module_id := 3; __name__ := "c"; __file__ := Some "/src/c.py";
     __dict__ := ∅ |}.

Definition mutual_session : session :=
  {| sys_modules := {[ "a" := module_a; "b" := module_b; "c" := module_c ]};
     stat_mtime :=
       {[ "/src/a.py" := 200%Z; "/src/b.py" := 100%Z; "/src/c.py" := 100%Z ]};
     user_ns := {[ "a" := 1; "b" := 9; "c" := 3 ]} |}.

Definition mutual_reloader : ModuleReloader :=
  {| reload := ["a"; "b"; "c"];
     _last_updates :=
       {[ "a" := Some 100%Z; "b" := Some 100%Z; "c" := Some 100%Z ]};
     _globals_to_update :=
       {[ "a" := {| name := "a"; instance := 1 |};
          "b" := {| name := "b"; instance := 2 |};
          "c" := {| name := "c"; instance := 3 |} ]} |}.

(** The import machinery in the examples: every module asked for gets a
    new module object. *)
Definition fresh_import (registry : gmap string module)
    (modules : list string) : exception + gmap string module :=
  inr (foldl (λ registry module_name,
                match registry !! module_name with
                | Some module =>
                  <[module_name :=
                      {| module_id := module_id module + 10;
                         __name__ := __name__ module;
                         __file__ := __file__ module;
                         __dict__ := __dict__ module |}]> registry
                | None => registry
                end) registry modules).

(** ** [track_globals] *)

Section track_globals.
(** [re.fullmatch(r'_+(\d+)?', name)]: the names IPython keeps for itself
    ([_], [__], [_12]), as the regular expression engine decides. *)
Context (is_ipython_variable : string → bool).
(** The module objects that exist, by identity; a value that is not among
    them is not an instance of [types.ModuleType]. *)
Context (module_objects : gmap obj_id module).

(** [value.__dict__.get('__name__', '').startswith(self.reload)], where
    [self.reload] is a tuple of prefixes. *)
Definition will_be_reloaded (prefixes : list string) (value : module) : bool :=
  existsb (λ prefix, String.prefix prefix (__name__ value)) prefixes.

(** The body of the loop of [track_globals], for one global. *)
Definition track_global (prefixes : list string)
    (tracked : gmap string _ModuleInfo) (entry : string * obj_id)
    : gmap string _ModuleInfo :=
  let '(global_name, value_id) := entry in
  match module_objects !! value_id with
  | None => tracked
  | Some value =>
    if negb (will_be_reloaded prefixes value) then tracked
    else if is_ipython_variable global_name then tracked
    else <[global_name := {| name := __name__ value;
                             instance := value_id |}]> tracked
  end.

(** [track_globals], after the body of the [with] block has run: [ip] is
    the session as the block leaves it. *)
Definition track_globals (self : ModuleReloader) (ip : session)
    : ModuleReloader :=
  {| reload := reload self;
     _last_updates := _last_updates self;
     _globals_to_update :=
       foldl (track_global (reload self)) (_globals_to_update self)
             (map_to_list (user_ns ip)) |}.
End track_globals.

(** The characters left after the leading underscores (code 95). *)
Fixpoint dropwhile_underscores (chars : list Ascii.ascii)
    : list Ascii.ascii :=
  match chars with
  | c :: rest =>
    if Ascii.nat_of_ascii c =? 95 then dropwhile_underscores rest else chars
  | [] => []
  end.

(** The names of the shape [_+(\d+)?] over ASCII digits, for the
    examples. *)
Definition ascii_ipython_variable (global_name : string) : bool :=
  let chars := String.list_ascii_of_string global_name in
  let digits := dropwhile_underscores chars in
  negb (length digits =? length chars)
  && forallb (λ c, (48 <=? Ascii.nat_of_ascii c)
                   && (Ascii.nat_of_ascii c <=? 57)) digits.

(** The module objects that the user namespace of [mutual_session] binds. *)
Definition mutual_objects : gmap obj_id module :=
  {[ 1 := module_a; 3 := module_c ]}.

(** A reloader for [mutual_session] that has recorded no global yet. *)
Definition untracked_reloader : ModuleReloader :=
  {| reload := ["a"; "b"; "c"];
     _last_updates := _last_updates mutual_reloader;
     _globals_to_update := ∅ |}.

(** A small dependency graph for the examples: [a] references [b], and
    [b] references [a] and itself. *)
Definition small_graph : module_graph :=
  {[ "a" := {["b"]}; "b" := {["a"; "b"]} ]}.

(** ** Invariants of the search *)

(** What the cache of a search instance records is right. *)
Definition cache_sound (self : _ModuleSearch) : Prop :=
  ∀ m b, _cache self !! m = Some b →
         b = true ↔ reaches (_graph self) (_targets self) m.

(** The names a traversal from [source] can meet. *)
Definition universe (self : _ModuleSearch) (source : string) : gset string :=
  {[source]} ∪ graph_nodes (_graph self).

(** The invariant of [while queue:] in [_reaches_targets self source]. *)
Definition loop_inv (self : _ModuleSearch) (source : string)
    (queue : list string) (visited : gset string) : Prop :=
  source ∈ visited ∧
  visited ⊆ universe self source ∧
  (∀ x, x ∈ queue → x ∈ visited) ∧
  (∀ x, x ∈ visited → rtc (edge (_graph self)) source x) ∧
  (∀ x, x ∈ visited → x ∉ queue →
     (¬ reaches (_graph self) (_targets self) x) ∨
     ((x ∉ _targets self) ∧ ∀ y, edge (_graph self) x y → y ∈ visited)).

End CellAutoreload.

Module InplaceReload.

(** ** Objects *)

(** Object identity: what a reference, strong or weak, holds. *)
Abbreviation addr := nat.

(** The types that [_UPDATE_RULES] tests with [isinstance]. *)
Inductive pytype :=
  | type_
  | FunctionType
  | MethodType
  | property.

#[global] Instance pytype_eq_dec : EqDecision pytype.
Proof. solve_decision. Defined.

Inductive exception :=
  | AttributeError
  | TypeError
  | ValueError
  | RecursionError.

Record object := {
  (** Which of the four types the object is an instance of, if any. Their
      instance layouts exclude one another, so that an object is an
      instance of at most one of them. *)
  ob_kind : option pytype;
  (** [type(obj)], the runtime class pointer *)
  ob_class : addr;
  (** The attributes the object holds itself, by name: the namespace
      ([__dict__]) of a class or of a module, the attributes of a function
      ([__code__], [__defaults__], ...), of a bound method ([__func__]) or
      of a property ([fget], [fset], [fdel]). *)
  ob_attrs : gmap string addr;
  (** The objects on which attribute lookup goes on when the object does
      not hold the name itself: for a class, the rest of its [__mro__]. *)
  ob_mro : list addr;
  (** [bool(obj)] *)
  ob_truthy : bool;
  (** The exception, if any, that assigning a value to an attribute of the
      object raises: [AttributeError] for a read-only attribute, such as
      [__closure__] and [__globals__] of a function; [TypeError] or
      [ValueError] for a value the attribute does not accept. The name
      ["__class__"] stands for the assignment of the class pointer. *)
  ob_setattr_raises : string → addr → option exception;
  (** The exception, if any, that deleting an attribute raises. *)
  ob_delattr_raises : string → option exception;
}.

(** The live objects. An address that is not in the heap is that of an
    object that has been collected, or of a value that has no attribute
    and is an instance of none of the four types. *)
Abbreviation heap := (gmap addr object).

Definition with_attrs (attrs : gmap string addr) (o : object) : object :=
  {| ob_kind := ob_kind o; ob_class := ob_class o; ob_attrs := attrs;
     ob_mro := ob_mro o; ob_truthy := ob_truthy o;
     ob_setattr_raises := ob_setattr_raises o;
     ob_delattr_raises := ob_delattr_raises o |}.

Definition with_class (class : addr) (o : object) : object :=
  {| ob_kind := ob_kind o; ob_class := class; ob_attrs := ob_attrs o;
     ob_mro := ob_mro o; ob_truthy := ob_truthy o;
     ob_setattr_raises := ob_setattr_raises o;
     ob_delattr_raises := ob_delattr_raises o |}.

(** What a call leaves: its value and the heap, or the exception it raised
    and the heap as it was then. *)
Inductive result (A : Type) :=
  | Ok (a : A) (h : heap)
  | Raise (e : exception) (h : heap).
Arguments Ok {A} a h.
Arguments Raise {A} e h.


(** A [for] loop with a loop-carried value; an exception leaves it. *)
Fixpoint fold_each {A S} (body : A → S → heap → result S)
    (l : list A) (s : S) (h : heap) : result S :=
  match l with
  | [] => Ok s h
  | x :: l =>
    match body x s h with
    | Ok s h => fold_each body l s h
    | Raise e h => Raise e h
    end
  end.

Definition for_each {A} (body : A → heap → result unit)
    (l : list A) (h : heap) : result unit :=
  fold_each (λ x _, body x) l tt h.

(** [except (AttributeError, TypeError): pass] *)
Definition caught (e : exception) : bool :=
  match e with
  | AttributeError | TypeError => true
  | ValueError | RecursionError => false
  end.

Definition try_pass (r : result unit) : result unit :=
  match r with
  | Ok _ h => Ok tt h
  | Raise e h => if caught e then Ok tt h else Raise e h
  end.

(** The attribute an object or the objects of its [ob_mro] hold under a
    name, first found first. *)
Definition lookup_attr (h : heap) (holders : list addr) (name : string)
    : option addr :=
  foldr (λ holder found,
           match h !! holder ≫= (λ o, ob_attrs o !! name) with
           | Some v => Some v
           | None => found
           end)
        None holders.

(** [getattr(obj, name)]; [None] stands for [AttributeError]. *)
Definition getattr (h : heap) (obj : addr) (name : string) : option addr :=
  o ← h !! obj; lookup_attr h (obj :: ob_mro o) name.

(** [setattr(obj, name, v)] *)
Definition setattr (obj : addr) (name : string) (v : addr) (h : heap)
    : result unit :=
  match h !! obj with
  | None => Raise AttributeError h
  | Some o =>
    match ob_setattr_raises o name v with
    | Some e => Raise e h
    | None => Ok tt (<[obj := with_attrs (<[name := v]> (ob_attrs o)) o]> h)
    end
  end.

(** [delattr(obj, name)] *)
Definition delattr (obj : addr) (name : string) (h : heap) : result unit :=
  match h !! obj with
  | None => Raise AttributeError h
  | Some o =>
    match ob_delattr_raises o name with
    | Some e => Raise e h
    | None =>
      match ob_attrs o !! name with
      | None => Raise AttributeError h
      | Some _ => Ok tt (<[obj := with_attrs (delete name (ob_attrs o)) o]> h)
      end
    end
  end.

(** [isinstance(obj, type_)] for the types of [_UPDATE_RULES] *)
Definition isinstance (h : heap) (obj : addr) (t : pytype) : bool :=
  bool_decide (h !! obj ≫= ob_kind = Some t).

(** [obj.__dict__] of a module or of a class *)
Definition namespace (h : heap) (obj : addr) : gmap string addr :=
  default ∅ (ob_attrs <$> h !! obj).

(** ** The update rules *)

(** [try: setattr(old, name, getattr(new, name))
     except (AttributeError, TypeError): pass] *)
Definition try_copy_attr (old new : addr) (name : string) (h : heap)
    : result unit :=
  try_pass
    match getattr h new name with
    | None => Raise AttributeError h
    | Some v => setattr old name v h
    end.

Definition function_attributes : list string :=
  ["__code__"; "__defaults__"; "__doc__"; "__closure__"; "__globals__";
   "__dict__"].

Definition _update_function (old new : addr) (h : heap) : result unit :=
  for_each (try_copy_attr old new) function_attributes h.

(** The objects that refer to [obj]: through their class pointer, through
    an attribute, or through their [ob_mro]. *)
Definition refers_to (obj : addr) (o : object) : Prop :=
  ob_class o = obj ∨ obj ∈ (map_to_list (ob_attrs o)).*2 ∨ obj ∈ ob_mro o.

#[global] Instance refers_to_dec obj o : Decision (refers_to obj o).
Proof. unfold refers_to. apply _. Defined.

(** [gc.get_referrers(obj)] *)
Definition gc_get_referrers (h : heap) (obj : addr) : list addr :=
  (map_to_list (filter (λ entry, refers_to obj entry.2) h)).*1.

(** [object.__setattr__(ref, "__class__", new)] *)
Definition set_class (ref new : addr) (h : heap) : result unit :=
  match h !! ref with
  | None => Raise AttributeError h
  | Some o =>
    match ob_setattr_raises o "__class__" new with
    | Some e => Raise e h
    | None => Ok tt (<[ref := with_class new o]> h)
    end
  end.

Definition _update_instances (old new : addr) (h : heap) : result unit :=
  for_each (λ ref h,
              if decide (ob_class <$> h !! ref = Some old)
              then set_class ref new h else Ok tt h)
           (gc_get_referrers h old) h.

(** The body of the loop of [_update_class], for one key of the old
    class. *)
Definition update_class_attr
    (update_generic : addr → addr → heap → result unit)
    (old new : addr) (key : string) (h : heap) : result unit :=
  match getattr h old key with
  | None => Raise AttributeError h
  | Some old_obj =>
    match getattr h new key with
    | None => try_pass (delattr old key h)
    | Some new_obj =>
      match update_generic old_obj new_obj h with
      | Raise e h => Raise e h
      | Ok _ h => try_copy_attr old new key h
      end
    end
  end.

Definition _update_class (update_generic : addr → addr → heap → result unit)
    (old new : addr) (h : heap) : result unit :=
  match h !! old with
  | None => Raise AttributeError h
  | Some o =>
    match for_each (update_class_attr update_generic old new)
                   (map_to_list (ob_attrs o)).*1 h with
    | Raise e h => Raise e h
    | Ok _ h => _update_instances old new h
    end
  end.

Definition _update_property
    (update_generic : addr → addr → heap → result unit)
    (old new : addr) (h : heap) : result unit :=
  for_each (λ accessor h,
              match getattr h old accessor, getattr h new accessor with
              | Some old_f, Some new_f => update_generic old_f new_f h
              | _, _ => Raise AttributeError h
              end)
           ["fdel"; "fget"; "fset"] h.

(** [lambda a, b: _update_function(a.__func__, b.__func__)] *)
Definition update_method (a b : addr) (h : heap) : result unit :=
  match getattr h a "__func__", getattr h b "__func__" with
  | Some a__func__, Some b__func__ => _update_function a__func__ b__func__ h
  | _, _ => Raise AttributeError h
  end.

Definition _UPDATE_RULES (update_generic : addr → addr → heap → result unit)
    : list (pytype * (addr → addr → heap → result unit)) :=
  [ (type_, _update_class update_generic);
    (FunctionType, _update_function);
    (MethodType, update_method);
    (property, _update_property update_generic) ].

(** [_update_generic], with the depth of calls that the interpreter still
    allows below this one; a call beyond it raises [RecursionError]. *)
Fixpoint _update_generic (depth : nat) (old new : addr) (h : heap)
    : result unit :=
  if decide (old = new) then Ok tt h
  else
    let update_generic :=
      match depth with
      | O => λ _ _ h, Raise RecursionError h
      | S depth => _update_generic depth
      end in
    match find (λ rule, isinstance h old rule.1 && isinstance h new rule.1)
               (_UPDATE_RULES update_generic) with
    | Some (_, update) => update old new h
    | None => Ok tt h
    end.

Definition _has_update_rule (h : heap) (obj : addr) : bool :=
  existsb (λ rule : pytype * (addr → addr → heap → result unit),
             isinstance h obj rule.1)
          (_UPDATE_RULES (λ _ _ h, Ok tt h)).

(** ** [_ModuleRefs] *)

(** A weak reference is the address of its referent; calling it gives the
    referent while it is live. *)
Record _ModuleRefs := {
  modules : list addr;
  objs : gmap string (list addr);
}.

(** The condition [(r := ref())] of the comprehensions: the reference
    resolves, and what it resolves to is true. *)
Definition resolves_true (h : heap) (ref : addr) : bool :=
  match h !! ref with
  | Some o => ob_truthy o
  | None => false
  end.

(** [[r for ref in refs if (r := ref())]] *)
Definition resolve_all (h : heap) (refs : list addr) : list addr :=
  filter (λ ref, resolves_true h ref = true) refs.

(** [old_module.__dict__.clear(); old_module.__dict__.update(new_module.__dict__)] *)
Definition _update_old_module (old_module new_module : addr) (h : heap)
    : heap :=
  let h := alter (with_attrs ∅) old_module h in
  alter (λ o, with_attrs (namespace h new_module ∪ ob_attrs o) o)
        old_module h.

(** The body of the loop on [new_module.__dict__.items()]. *)
Definition update_objs_named (depth : nat) (self : _ModuleRefs)
    (item : string * addr) (live_old_objects : gmap string (list addr))
    (h : heap) : result (gmap string (list addr)) :=
  let '(name, new_obj) := item in
  match objs self !! name with
  | None => Ok live_old_objects h
  | Some old_obj_refs =>
    let live := resolve_all h old_obj_refs in
    match for_each (λ old_obj, _update_generic depth old_obj new_obj)
                   live h with
    | Raise e h => Raise e h
    | Ok _ h => Ok (<[name := live]> live_old_objects) h
    end
  end.

(** [for old_module in modules: _update_old_module(old_module, new_module)] *)
Definition update_old_module_versions (new_module : addr)
    (modules : list addr) (h : heap) : heap :=
  foldl (λ h old_module, _update_old_module old_module new_module h)
        h modules.

Definition update_refs_with_new_module (self : _ModuleRefs) (depth : nat)
    (new_module : addr) (h : heap) : result _ModuleRefs :=
  let modules := resolve_all h (modules self) in
  let h := update_old_module_versions new_module modules h in
  match fold_each (update_objs_named depth self)
                  (map_to_list (namespace h new_module)) ∅ h with
  | Raise e h => Raise e h
  | Ok live_old_objects h =>
    Ok {| modules := modules; objs := live_old_objects |} h
  end.


(** What [try_copy_attr old new name] writes on [old], whose object is
    [o], if anything: the value of the attribute on [new], when it has one
    and assigning it is allowed. *)
Definition copied_attr (h : heap) (o : object) (new : addr) (name : string)
    : option addr :=
  match getattr h new name with
  | Some v =>
    match ob_setattr_raises o name v with
    | Some _ => None
    | None => Some v
    end
  | None => None
  end.

(** ** Frames *)

(** The fields no update changes. *)
Definition same_shape (o o' : object) : Prop :=
  ob_kind o' = ob_kind o ∧ ob_mro o' = ob_mro o ∧
  ob_truthy o' = ob_truthy o ∧
  ob_setattr_raises o' = ob_setattr_raises o ∧
  ob_delattr_raises o' = ob_delattr_raises o.








(** ** Example heaps *)

(** Assignment to the attributes of a function as the interpreter has it:
    [__closure__] and [__globals__] are read-only. *)
Definition function_setattr_raises (name : string) (v : addr)
    : option exception :=
  if bool_decide (name ∈ ["__closure__"; "__globals__"])
  then Some AttributeError else None.

Definition function_object (attrs : gmap string addr) : object :=
  {| ob_kind := Some FunctionType; ob_class := 90; ob_attrs := attrs;
     ob_mro := []; ob_truthy := true;
     ob_setattr_raises := function_setattr_raises;
     ob_delattr_raises := λ _, None |}.

(** A class whose [__dict__] and [__weakref__] attributes cannot be
    assigned or deleted. *)
Definition class_setattr_raises (name : string) (v : addr)
    : option exception :=
  if bool_decide (name ∈ ["__dict__"; "__weakref__"])
  then Some AttributeError else None.

Definition class_object (attrs : gmap string addr) : object :=
  {| ob_kind := Some type_; ob_class := 91; ob_attrs := attrs;
     ob_mro := []; ob_truthy := true;
     ob_setattr_raises := class_setattr_raises;
     ob_delattr_raises := λ name, class_setattr_raises name 0 |}.

Definition instance_object (class : addr) (attrs : gmap string addr)
    : object :=
  {| ob_kind := None; ob_class := class; ob_attrs := attrs;
     ob_mro := []; ob_truthy := true;
     ob_setattr_raises := λ _ _, None;
     ob_delattr_raises := λ _, None |}.

(** Two versions of a function: object 1 is the old one, object 2 the one
    the reloaded module defines. *)
Definition two_functions : heap :=
  {[ 1 := function_object
            {[ "__code__" := 11; "__defaults__" := 12; "__doc__" := 13;
               "__closure__" := 14; "__globals__" := 15; "__dict__" := 16 ]};
     2 := function_object
            {[ "__code__" := 21; "__defaults__" := 22; "__doc__" := 23;
               "__closure__" := 24; "__globals__" := 25; "__dict__" := 26 ]} ]}.

(** A top-level name that was a function (object 1) and is a class
    (object 3) in the reloaded module. *)
Definition function_then_class : heap :=
  <[ 3 := class_object {[ "__call__" := 31 ]} ]> two_functions.

Definition module_object (attrs : gmap string addr) : object :=
  {| ob_kind := None; ob_class := 92; ob_attrs := attrs;
     ob_mro := []; ob_truthy := true;
     ob_setattr_raises := λ _ _, None;
     ob_delattr_raises := λ _, None |}.

(** A module that defined [f] (object 1) is imported again: the new
    module object 4 defines [g] (object 2) and [f] no more. Object 6 was
    the module object of the version before; object 7, an older function
    [g], has been collected. *)
Definition renamed_function : heap :=
  <[ 4 := module_object {[ "g" := 2 ]} ]>
    (<[ 6 := module_object {[ "f" := 1 ]} ]> two_functions).

Definition renamed_function_refs : _ModuleRefs :=
  {| modules := [6; 8]; objs := {[ "f" := [1]; "g" := [7] ]} |}.

(** A class [C] before (object 1) and after (object 2) its module is
    imported again: the method [f] (objects 11, then 21) has a new body,
    the method [g] (object 12) is gone, and [__dict__] cannot be assigned.
    Object 5 is an instance of the old class. *)
Definition class_versions : heap :=
  {[ 1 := class_object {[ "f" := 11; "g" := 12; "__dict__" := 13 ]};
     2 := class_object {[ "f" := 21; "__dict__" := 23 ]};
     11 := function_object {[ "__code__" := 41 ]};
     12 := function_object {[ "__code__" := 43 ]};
     21 := function_object {[ "__code__" := 42 ]};
     5 := instance_object 1 {[ "x" := 50 ]} ]}.


(** Two versions of a class that holds a reference to itself. *)
Definition self_referring : heap :=
  {[ 1 := class_object {[ "me" := 1 ]};
     2 := class_object {[ "me" := 2 ]} ]}.

(** ** [save_module] *)

Section save_module.
(** The contents of the [str] objects, by address. *)
Context (str_value : gmap addr string).
(** Whether [weakref.ref(obj)] accepts the object; it raises [TypeError]
    for an object of a type without support for weak references. *)
Context (supports_weakref : addr → bool).

(** [a == b] for the values of [__module__] and [__name__]: two strings
    are equal when their contents are, and an object of another type is
    equal to itself only. *)
Definition py_eq (a b : addr) : bool :=
  match str_value !! a, str_value !! b with
  | Some s, Some t => bool_decide (s = t)
  | _, _ => bool_decide (a = b)
  end.

(** [hasattr(obj, "__module__") and obj.__module__ == module.__name__];
    [None] stands for the [AttributeError] of [module.__name__]. *)
Definition _belong_to_module (h : heap) (obj module : addr) : option bool :=
  match getattr h obj "__module__" with
  | None => Some false
  | Some obj__module__ =>
    match getattr h module "__name__" with
    | None => None
    | Some module__name__ => Some (py_eq obj__module__ module__name__)
    end
  end.

(** The body of the loop of [save_module], for one binding of the module.
    [self.objs[name]] makes the entry of the name before [weakref.ref] is
    called, so that the entry is there when [weakref.ref] raises. *)
Definition save_obj (h : heap) (module : addr)
    (state : option exception * gmap string (list addr))
    (item : string * addr) : option exception * gmap string (list addr) :=
  let '(raised, objs) := state in
  let '(name, old_obj) := item in
  match raised with
  | Some _ => state
  | None =>
    match _belong_to_module h old_obj module with
    | None => (Some AttributeError, objs)
    | Some false => state
    | Some true =>
      if negb (_has_update_rule h old_obj) then state
      else
        let refs := default [] (objs !! name) in
        if supports_weakref old_obj
        then (None, <[name := refs ++ [old_obj]]> objs)
        else (Some TypeError, <[name := refs]> objs)
    end
  end.

(** [save_module]: the exception it raised, if any, and the snapshot as
    the call leaves it. *)
Definition save_module (self : _ModuleRefs) (module : addr) (h : heap)
    : option exception * _ModuleRefs :=
  if supports_weakref module then
    let '(raised, objs) :=
      foldl (save_obj h module) (None, objs self)
            (map_to_list (namespace h module)) in
    (raised, {| modules := modules self ++ [module]; objs := objs |})
  else (Some TypeError, self).
End save_module.

(** ** More example heaps *)

(** A module object (4) named ["pkg.m"] that defines the function [f]
    (object 1) and the class [C] (object 3), and has imported the
    function [g] (object 2) from another module; its next version
    (object 6) defines [f] only. Objects 70, 71 and 72 are strings. *)
Definition module_heap : heap :=
  {[ 1 := function_object {[ "__module__" := 70; "__code__" := 11 ]};
     2 := function_object {[ "__module__" := 71; "__code__" := 21 ]};
     3 := class_object {[ "__module__" := 72 ]};
     4 := module_object {[ "__name__" := 70; "f" := 1; "g" := 2; "C" := 3;
                           "version" := 73 ]};
     6 := module_object {[ "__name__" := 72; "f" := 2 ]} ]}.

Definition module_strings : gmap addr string :=
  {[ 70 := "pkg.m"; 71 := "pkg.other"; 72 := "pkg.m" ]}.

(** A function whose code object cannot be replaced by another one that
    has not the same number of free variables: the assignment of
    [__code__] raises [ValueError]. *)
Definition closure_object (attrs : gmap string addr) : object :=
  {| ob_kind := Some FunctionType; ob_class := 90; ob_attrs := attrs;
     ob_mro := []; ob_truthy := true;
     ob_setattr_raises :=
       λ name v,
         if bool_decide (name = "__code__") then Some ValueError
         else function_setattr_raises name v;
     ob_delattr_raises := λ _, None |}.

Definition two_closures : heap :=
  {[ 1 := closure_object
            {[ "__code__" := 11; "__defaults__" := 12; "__doc__" := 13;
               "__closure__" := 14; "__globals__" := 15; "__dict__" := 16 ]};
     2 := function_object
            {[ "__code__" := 21; "__defaults__" := 22; "__doc__" := 23;
               "__closure__" := 24; "__globals__" := 25; "__dict__" := 26 ]} ]}.



(** An instance of a subclass of [property] that declares [__slots__]:
    its attributes are looked up on its class after the instance, and no
    weak reference to it can be made. *)
Definition property_object (class : addr) (attrs : gmap string addr)
    : object :=
  {| ob_kind := Some property; ob_class := class; ob_attrs := attrs;
     ob_mro := [class]; ob_truthy := true;
     ob_setattr_raises := λ _ _, Some AttributeError;
     ob_delattr_raises := λ _, Some AttributeError |}.

(** The module of [module_heap] when it also binds [p] to an instance
    (object 9) of its class [C], a subclass of [property] with
    [__slots__]. *)
Definition slotted_property : heap :=
  <[ 9 := property_object 3 {[ "fget" := 1 ]} ]>
    (<[ 4 := module_object {[ "__name__" := 70; "C" := 3; "p" := 9 ]} ]>
       module_heap).

Definition weakref_unless_slotted (obj : addr) : bool :=
  bool_decide (obj ≠ 9).

(** What had been recorded of the module of [module_heap] before: a
    module object and a function [f] that have been collected since. *)
Definition module_refs : _ModuleRefs :=
  {| modules := [5]; objs := {[ "f" := [8] ]} |}.


End InplaceReload.

(** Decidable facts about concrete sessions and heaps are settled by
    evaluation. *)
Ltac by_evaluation := apply (bool_decide_unpack _); vm_compute; exact I.

Module CellAutoreloadProofs.
Import CellAutoreload.

(** *** Proofs about the search *)

Lemma enqueue_neighbours_spec nbrs visited queue :
  ∃ new,
    enqueue_neighbours nbrs visited queue
      = (visited ∪ list_to_set nbrs, queue ++ new) ∧
    NoDup new ∧
    (∀ x, x ∈ new ↔ x ∈ nbrs ∧ x ∉ visited).
Proof.
  revert visited queue.
  induction nbrs as [|n nbrs IH]; intros visited queue.
  - exists []. cbn. rewrite app_nil_r, union_empty_r_L.
    split_and!; [done | constructor | set_solver].
  - unfold enqueue_neighbours. cbn [foldl].
    destruct (decide (n ∈ visited)) as [Hin|Hnin].
    + destruct (IH visited queue) as (new & Heq & Hnd & Hmem).
      exists new. unfold enqueue_neighbours in Heq. rewrite Heq.
      split_and!; [f_equal; set_solver | done |].
      intros x. rewrite Hmem. set_solver.
    + destruct (IH ({[n]} ∪ visited) (queue ++ [n]))
        as (new & Heq & Hnd & Hmem).
      exists (n :: new). unfold enqueue_neighbours in Heq. rewrite Heq.
      split_and!.
      * rewrite <- app_assoc. f_equal. set_solver.
      * constructor; [|done]. rewrite Hmem. set_solver.
      * intros x. rewrite elem_of_cons, Hmem.
        destruct (decide (x = n)); set_solver.
Qed.

Lemma neighbours_graph_nodes graph m x :
  x ∈ neighbours graph m → x ∈ graph_nodes graph.
Proof.
  unfold neighbours, graph_nodes. intros Hx.
  destruct (graph !! m) as [ns|] eqn:Hm; [|set_solver].
  apply elem_of_union_list. exists ns. split; [|done].
  apply list_elem_of_fmap. exists (m, ns). split; [done|].
  by apply elem_of_map_to_list.
Qed.

Lemma size_difference_fresh (U visited : gset string) (new : list string) :
  NoDup new →
  (∀ x, x ∈ new → x ∈ U ∧ x ∉ visited) →
  length new + size (U ∖ (visited ∪ list_to_set new)) = size (U ∖ visited).
Proof.
  intros Hnd Hnew.
  rewrite <- (size_list_to_set (C := gset string) new) by done.
  rewrite <- size_union by set_solver.
  f_equal. apply set_eq. intros x.
  rewrite elem_of_union, !elem_of_difference, elem_of_union,
    elem_of_list_to_set.
  destruct (decide (x ∈ new)) as [Hx|Hx]; [|tauto].
  destruct (Hnew x Hx). tauto.
Qed.

Section search_correct.
Context (self : _ModuleSearch) (source : string).
#[local] Abbreviation graph := (_graph self).
#[local] Abbreviation targets := (_targets self).

Hypothesis Hcache : cache_sound self.

Lemma loop_inv_start : loop_inv self source [source] {[source]}.
Proof.
  unfold loop_inv, universe. split_and!; try set_solver.
Qed.

Lemma loop_inv_exhausted visited :
  loop_inv self source [] visited → ¬ reaches graph targets source.
Proof.
  intros (Hsrc & _ & _ & _ & Hdone) (t & Ht & Hpath).
  cut (∀ x, rtc (edge graph) x t → x ∈ visited → False); [by eauto|].
  clear Hsrc Hpath. intros x Hpath.
  induction Hpath as [x|x y z Hxy Hyz IH]; intros Hx.
  - destruct (Hdone x Hx) as [Hno|[Hno _]]; [set_solver| |done].
    apply Hno. by exists x.
  - destruct (Hdone x Hx) as [Hno|[_ Hnext]]; [set_solver| |by eauto].
    apply Hno. exists z. split; [done|]. by eapply rtc_l.
Qed.

Lemma while_queue_correct fuel queue visited :
  loop_inv self source queue visited →
  length queue + size (universe self source ∖ visited) < fuel →
  ∃ b, while_queue fuel self queue visited = Some b ∧
       (b = true ↔ reaches graph targets source).
Proof.
  revert queue visited.
  induction fuel as [|fuel IH]; intros queue visited Hinv Hfuel; [lia|].
  cbn [while_queue]. unfold loop_body.
  destruct queue as [|m queue].
  { exists false. split; [done|].
    split; [done|]. intros Hr. by apply loop_inv_exhausted in Hinv. }
  destruct Hinv as (Hsrc & Huniv & Hq & Hreach & Hdone).
  assert (rtc (edge graph) source m) as Hm by (apply Hreach, Hq; set_solver).
    destruct (_cache self !! m) as [[|]|] eqn:Hc.
  - exists true. split; [done|]. split; [|done]. intros _.
    destruct (proj1 (Hcache m true Hc) eq_refl) as (t & Ht & Hpath).
    exists t. split; [done|]. by etrans.
  - apply IH; [|cbn in Hfuel; lia].
    split_and!; try done.
    + intros x Hx. apply Hq. set_solver.
    + intros x Hx Hnq. destruct (decide (x = m)) as [->|Hne].
      * left. intros Hr. apply (Hcache m false Hc) in Hr. done.
      * apply Hdone; [done|]. set_solver.
  - destruct (decide (m ∈ targets)) as [Ht|Ht].
    { exists true. split; [done|]. split; [|done]. intros _. by exists m. }
    destruct (enqueue_neighbours_spec
                (elements (neighbours graph m)) visited queue)
      as (new & -> & Hnd & Hnew).
    assert (∀ x, x ∈ new → x ∈ universe self source ∧ x ∉ visited) as Hfresh.
    { intros x [Hx ?]%Hnew. split; [|done].
      apply elem_of_elements, neighbours_graph_nodes in Hx.
      unfold universe. set_solver. }
    assert (visited ∪ list_to_set (elements (neighbours graph m))
            = visited ∪ list_to_set new) as Hvis.
    { apply set_eq. intros x.
      rewrite !elem_of_union, !elem_of_list_to_set, Hnew.
      destruct (decide (x ∈ visited)); tauto. }
    apply IH.
    + split_and!.
      * set_solver.
      * rewrite Hvis. intros x. rewrite elem_of_union, elem_of_list_to_set.
        intros [?|Hx]; [by apply Huniv|by apply Hfresh].
      * intros x [Hx|Hx]%elem_of_app.
        -- apply elem_of_union_l, Hq. set_solver.
        -- apply Hnew in Hx. set_solver.
      * intros x [Hx|Hx]%elem_of_union; [by apply Hreach|].
        eapply rtc_r; [exact Hm|].
        unfold edge. set_solver.
      * intros x Hx Hnq.
        destruct (decide (x = m)) as [->|Hne].
        { right. split; [done|]. intros y Hy. unfold edge in Hy. set_solver. }
        assert (x ∈ visited) as Hxv.
        { apply elem_of_union in Hx as [?|Hx]; [done|].
          apply elem_of_list_to_set in Hx.
          destruct (decide (x ∈ visited)); [done|].
          exfalso. apply Hnq, elem_of_app. right. by apply Hnew. }
        destruct (Hdone x Hxv) as [?|[? Hnext]]; [set_solver|by left|].
        right. split; [done|]. intros y Hy. apply elem_of_union_l. eauto.
    + rewrite Hvis, length_app.
      pose proof (size_difference_fresh (universe self source) visited new Hnd Hfresh).
      cbn in Hfuel. lia.
Qed.

Lemma search_fuel_enough fuel :
  search_fuel self source ≤ fuel →
  length [source] + size (universe self source ∖ {[source]}) < fuel.
Proof.
  unfold search_fuel. fold (universe self source). intros Hle.
  assert (universe self source
          = {[source]} ∪ universe self source ∖ {[source]}) as Heq.
  { apply set_eq. intros x. unfold universe.
    destruct (decide (x = source)); set_solver. }
  rewrite Heq in Hle at 1.
  rewrite size_union, size_singleton in Hle by set_solver.
  cbn. lia.
Qed.

Lemma _reaches_targets_correct fuel :
  search_fuel self source ≤ fuel →
  ∃ b, while_queue fuel self [source] {[source]} = Some b ∧
       (b = true ↔ reaches graph targets source).
Proof.
  intros Hle. apply while_queue_correct;
    [apply loop_inv_start | by apply search_fuel_enough].
Qed.

(** Every node is put in the queue at most once. *)
Lemma traversal_enqueued_once enqueued queue visited :
  traversal self source enqueued queue visited →
  NoDup enqueued ∧ visited = list_to_set enqueued.
Proof.
  induction 1 as [|enq queue visited queue' visited' _ [IHnd IHvis] Hbody].
  - split; [apply NoDup_singleton | set_solver].
  - unfold loop_body in Hbody.
    destruct queue as [|m queue]; [done|].
    replace (length (m :: queue) - 1) with (length queue) by (cbn; lia).
    destruct (_cache self !! m) as [[|]|]; [done| |].
    + injection Hbody as <- <-. rewrite drop_all, app_nil_r. done.
    + destruct (decide (m ∈ _targets self)); [done|].
      destruct (enqueue_neighbours_spec
                  (elements (neighbours (_graph self) m)) visited queue)
        as (new & Heq & Hnd & Hnew).
      rewrite Heq in Hbody. injection Hbody as <- <-.
      rewrite drop_app_length. split.
      * apply NoDup_app. split_and!; [done| |done].
        intros x Hx [_ Hnv]%Hnew. apply Hnv. set_solver.
      * apply set_eq. intros x.
        rewrite elem_of_union, !elem_of_list_to_set, elem_of_app, Hnew.
        rewrite IHvis, elem_of_list_to_set, elem_of_elements.
        destruct (decide (x ∈ enq)); tauto.
Qed.
End search_correct.


(** *** The module name resolver and the staleness check *)

Lemma get_module_names_NoDup recursive registry prefixes :
  NoDup (get_module_names recursive registry prefixes).
Proof. apply NoDup_filter, NoDup_fst_map_to_list. Qed.

Lemma get_module_names_loaded recursive registry prefixes module_name :
  module_name ∈ get_module_names recursive registry prefixes →
  is_Some (registry !! module_name).
Proof.
  intros [_ Hin]%list_elem_of_filter.
  apply list_elem_of_fmap in Hin as ([k module] & -> & Hin).
  apply elem_of_map_to_list in Hin. by exists module.
Qed.

Lemma last_update_insert_ne (last_updates : gmap string (option Z)) n v m :
  m ≠ n → last_update (<[n := v]> last_updates) m = last_update last_updates m.
Proof. intros Hne. unfold last_update. by rewrite lookup_insert_ne. Qed.

Lemma find_dirty_modules_fold ip module_names
    (dirty0 : gset string) (last_updates0 : gmap string (option Z)) :
  NoDup module_names →
  let result := foldl (check_module ip) (dirty0, last_updates0) module_names in
  (∀ m, m ∈ result.1 ↔
        m ∈ dirty0 ∨
        (m ∈ module_names ∧
         is_dirty (last_update last_updates0 m)
                  (_get_last_module_update ip m) = true)) ∧
  (∀ m, result.2 !! m =
        if decide (m ∈ module_names)
        then Some (_get_last_module_update ip m) else last_updates0 !! m).
Proof.
  revert dirty0 last_updates0.
  induction module_names as [|n names IH]; intros dirty0 lu0 Hnd; cbn zeta.
  - cbn. split; intros m; [set_solver|].
    destruct (decide (m ∈ [])); [set_solver|done].
  - apply NoDup_cons in Hnd as [Hn Hnd]. cbn [foldl check_module].
    destruct (IH (if is_dirty (last_update lu0 n) (_get_last_module_update ip n)
                  then {[n]} ∪ dirty0 else dirty0)
                 (<[n := _get_last_module_update ip n]> lu0) Hnd)
      as [IHd IHl].
    cbn zeta in IHd, IHl. split; intros m.
    + rewrite IHd, elem_of_cons.
      destruct (decide (m = n)) as [->|Hne].
      * destruct (is_dirty (last_update lu0 n) _) eqn:Hd; set_solver.
      * rewrite last_update_insert_ne by done.
        destruct (is_dirty (last_update lu0 n) _); set_solver.
    + rewrite IHl.
      destruct (decide (m = n)) as [->|Hne].
      * rewrite decide_False by done. rewrite lookup_insert_eq.
        rewrite decide_True by set_solver. done.
      * rewrite lookup_insert_ne by done.
        destruct (decide (m ∈ names)).
        -- rewrite decide_True by set_solver. done.
        -- rewrite decide_False by set_solver. done.
Qed.

Lemma find_dirty_modules_spec ip module_names last_updates :
  NoDup module_names →
  (∀ m, m ∈ (find_dirty_modules ip module_names last_updates).1 ↔
        m ∈ module_names ∧
        is_dirty (last_update last_updates m)
                 (_get_last_module_update ip m) = true) ∧
  (∀ m, (find_dirty_modules ip module_names last_updates).2 !! m =
        if decide (m ∈ module_names)
        then Some (_get_last_module_update ip m) else last_updates !! m).
Proof.
  intros Hnd.
  destruct (find_dirty_modules_fold ip module_names ∅ last_updates Hnd)
    as [Hd Hl].
  split; [|exact Hl]. intros m. unfold find_dirty_modules.
  rewrite Hd. set_solver.
Qed.

Lemma is_dirty_true prev_mtime new_mtime :
  is_dirty prev_mtime new_mtime = true ↔
  prev_mtime = None ∨
  ∃ prev new, prev_mtime = Some prev ∧ new_mtime = Some new ∧ (new > prev)%Z.
Proof.
  destruct prev_mtime as [prev|], new_mtime as [new|]; cbn.
  - rewrite bool_decide_eq_true. naive_solver.
  - naive_solver.
  - naive_solver.
  - naive_solver.
Qed.


Lemma check_staleness_dirty recursive self ip m :
  m ∈ (check_staleness recursive self ip).1 ↔
  m ∈ get_module_names recursive (sys_modules ip) (reload self) ∧
  (last_update (_last_updates self) m = None ∨
   ∃ prev new,
     last_update (_last_updates self) m = Some prev ∧
     _get_last_module_update ip m = Some new ∧ (new > prev)%Z).
Proof.
  unfold check_staleness.
  destruct (find_dirty_modules_spec ip
              (get_module_names recursive (sys_modules ip) (reload self))
              (_last_updates self)) as [Hd _];
    [apply get_module_names_NoDup|].
  by rewrite Hd, is_dirty_true.
Qed.

Lemma check_staleness_stored recursive self ip m :
  (check_staleness recursive self ip).2 !! m =
  if decide (m ∈ get_module_names recursive (sys_modules ip) (reload self))
  then Some (_get_last_module_update ip m)
  else _last_updates self !! m.
Proof.
  unfold check_staleness.
  destruct (find_dirty_modules_spec ip
              (get_module_names recursive (sys_modules ip) (reload self))
              (_last_updates self)) as [_ Hl];
    [apply get_module_names_NoDup|].
  apply Hl.
Qed.






Lemma last_updates_checked recursive ip self m :
  m ∈ get_module_names recursive (sys_modules ip) (reload self) →
  last_update (_last_updates (checked recursive self ip)) m
  = _get_last_module_update ip m.
Proof.
  intros Hin. unfold last_update, checked. cbn.
  by rewrite check_staleness_stored, decide_True.
Qed.




(** *** The dependency graph and the reload closure *)

Lemma create_module_graph_fold (registry : gmap string module)
    (nodes : gset string) (sources : list string) (graph0 : module_graph) :
  (∀ source, source ∈ sources → is_Some (registry !! source)) →
  ∃ graph,
    foldl (λ graph source,
             graph ← graph;
             module ← registry !! source;
             Some (<[source := module_deps module nodes]> graph))
          (Some graph0) sources = Some graph ∧
    ∀ source,
      graph !! source =
      if decide (source ∈ sources)
      then (λ module, module_deps module nodes) <$> registry !! source
      else graph0 !! source.
Proof.
  revert graph0.
  induction sources as [|s sources IH]; intros graph0 Hloaded.
  - exists graph0. split; [done|]. intros source.
    by rewrite decide_False by set_solver.
  - destruct (Hloaded s) as [module Hs]; [set_solver|].
    cbn [foldl]. cbn [mbind option_bind]. rewrite Hs. cbn [mbind option_bind].
    destruct (IH (<[s := module_deps module nodes]> graph0))
      as (graph & -> & Hgraph); [set_solver|].
    exists graph. split; [done|]. intros source. rewrite Hgraph.
    destruct (decide (source ∈ sources)).
    + by rewrite decide_True by set_solver.
    + destruct (decide (source = s)) as [->|Hne].
      * rewrite decide_True by set_solver.
        by rewrite lookup_insert_eq, Hs.
      * rewrite decide_False by set_solver.
        by rewrite lookup_insert_ne.
Qed.

Lemma create_module_graph_spec (registry : gmap string module)
    (nodes : gset string) :
  (∀ source, source ∈ nodes → is_Some (registry !! source)) →
  ∃ graph,
    _create_module_graph registry nodes = Some graph ∧
    ∀ source,
      graph !! source =
      if decide (source ∈ nodes)
      then (λ module, module_deps module nodes) <$> registry !! source
      else None.
Proof.
  intros Hloaded.
  destruct (create_module_graph_fold registry nodes (elements nodes) ∅)
    as (graph & Heq & Hgraph).
  { intros source Hin. apply Hloaded. set_solver. }
  exists graph. split; [exact Heq|]. intros source. rewrite Hgraph.
  destruct (decide (source ∈ nodes)).
  - by rewrite decide_True by set_solver.
  - by rewrite decide_False by set_solver.
Qed.

Lemma cache_sound_fresh targets graph : cache_sound (new_search targets graph).
Proof. intros m b. cbn. by rewrite lookup_empty. Qed.

Lemma reaches_targets_spec self source :
  cache_sound self →
  ∃ ret self',
    reaches_targets self source = Some (ret, self') ∧
    (ret = true ↔ reaches (_graph self) (_targets self) source) ∧
    _graph self' = _graph self ∧ _targets self' = _targets self ∧
    cache_sound self'.
Proof.
  intros Hcache.
  destruct (_reaches_targets_correct self source Hcache
              (search_fuel self source)) as (ret & Hret & Hiff); [done|].
  eexists ret, _. unfold reaches_targets, _reaches_targets.
  rewrite Hret. cbn. split_and!; [done..|].
  intros m b. cbn. destruct (decide (m = source)) as [->|Hne].
  - rewrite lookup_insert_eq. by intros [= <-].
  - rewrite lookup_insert_ne by done. apply Hcache.
Qed.

Lemma search_instance_sound targets graph self :
  search_instance targets graph self →
  _graph self = graph ∧ _targets self = targets ∧ cache_sound self.
Proof.
  induction 1 as [|self source ret self' _ (Hg & Ht & Hc) Hcall].
  - split_and!; [done..|apply cache_sound_fresh].
  - destruct (reaches_targets_spec self source Hc)
      as (ret' & self'' & Heq & _ & Hg' & Ht' & Hc').
    rewrite Hcall in Heq. injection Heq as <- <-.
    split_and!; [congruence..|done].
Qed.

Lemma modules_reaching_spec self mods :
  cache_sound self →
  ∃ selected,
    modules_reaching self mods = Some selected ∧
    ∀ m, m ∈ selected ↔
         m ∈ mods ∧ reaches (_graph self) (_targets self) m.
Proof.
  revert self. induction mods as [|m0 mods IH]; intros self Hcache.
  - exists []. split; [done|]. set_solver.
  - destruct (reaches_targets_spec self m0 Hcache)
      as (ret & self' & Hcall & Hret & Hg & Ht & Hcache').
    destruct (IH self' Hcache') as (rest & Hrest & Hmem).
    cbn [modules_reaching]. rewrite Hcall. cbn. rewrite Hrest. cbn.
    eexists. split; [done|]. intros m.
    rewrite Hg, Ht in Hmem.
    destruct ret.
    + rewrite !elem_of_cons, Hmem.
      destruct (decide (m = m0)) as [->|]; naive_solver.
    + rewrite elem_of_cons, Hmem.
      destruct (decide (m = m0)) as [->|]; [|naive_solver].
      split; [naive_solver|]. intros [_ Hr]. apply Hret in Hr. done.
Qed.

(** C5. On any search instance, over any finite graph (cycles and
    self-edges included), the breadth-first search from [source] returns
    with the fuel given to it or with more; the result is [true] exactly
    when [source] is a target or a directed path leads from it to one; and
    no node is put in the queue twice during a traversal. *)
Theorem reachability_search_exact targets graph self source :
  search_instance targets graph self →
  (∃ ret,
     (∀ fuel, search_fuel self source ≤ fuel →
              while_queue fuel self [source] {[source]} = Some ret) ∧
     _reaches_targets self source = Some ret ∧
     (ret = true ↔
      source ∈ targets ∨ ∃ t, t ∈ targets ∧ rtc (edge graph) source t)) ∧
  (∀ enqueued queue visited,
     traversal self source enqueued queue visited → NoDup enqueued).
Proof.
  intros (Hg & Ht & Hcache)%search_instance_sound. split.
  - destruct (_reaches_targets_correct self source Hcache
                (search_fuel self source)) as (ret & Hret & Hiff); [done|].
    exists ret. split_and!.
    + intros fuel Hfuel.
      destruct (_reaches_targets_correct self source Hcache fuel Hfuel)
        as (ret' & -> & Hiff'). f_equal.
      destruct ret, ret'; try done; naive_solver.
    + exact Hret.
    + rewrite Hiff, Hg, Ht. unfold reaches. split; [auto|].
      intros [Hin|?]; [|done]. by exists source.
  - intros enqueued queue visited Htr.
    by apply traversal_enqueued_once in Htr as [? _].
Qed.

Lemma reachability_search_exact_witness :
  search_instance {["a"]} {["a" := {["b"]}; "b" := {["a"; "b"]}]}
    (new_search {["a"]} {["a" := {["b"]}; "b" := {["a"; "b"]}]}) ∧
  _reaches_targets
    (new_search {["a"]} {["a" := {["b"]}; "b" := {["a"; "b"]}]}) "b"
  = Some true.
Proof.
  split; [constructor|].
  destruct (reachability_search_exact
              {["a"]} {["a" := {["b"]}; "b" := {["a"; "b"]}]}
              (new_search {["a"]} {["a" := {["b"]}; "b" := {["a"; "b"]}]})
              "b" (search_fresh _ _)) as [(ret & _ & Hret & Hiff) _].
  rewrite Hret. f_equal. apply Hiff. right.
  exists "a". split; [set_solver|].
  apply rtc_once. unfold edge, neighbours.
  rewrite lookup_insert_ne, lookup_singleton_eq by done. cbn. set_solver.
Defined.

Lemma select_modules_to_update_spec recursive ip self
    (dirty_modules : gset string) :
  ∃ graph mods,
    _create_module_graph (sys_modules ip)
      (list_to_set (get_module_names recursive (sys_modules ip) (reload self)))
    = Some graph ∧
    select_modules_to_update recursive ip self dirty_modules = Some mods ∧
    ∀ m, m ∈ mods ↔
         m ∈ get_module_names recursive (sys_modules ip) (reload self) ∧
         reaches graph dirty_modules m.
Proof.
  destruct (create_module_graph_spec (sys_modules ip)
              (list_to_set (get_module_names recursive (sys_modules ip)
                                             (reload self))))
    as (graph & Hgraph & _).
  { intros source Hin%elem_of_list_to_set.
    by eapply get_module_names_loaded. }
  destruct (modules_reaching_spec (new_search dirty_modules graph)
              (elements (list_to_set (C := gset string)
                 (get_module_names recursive (sys_modules ip) (reload self))))
              (cache_sound_fresh _ _)) as (mods & Hmods & Hmem).
  exists graph, mods. unfold select_modules_to_update.
  rewrite Hgraph. cbn. split_and!; [done..|].
  intros m. rewrite Hmem. cbn. set_solver.
Qed.

(** C1. Whenever the staleness check of the hook finds a non-empty dirty
    set, the modules the hook selects for reload are exactly the watched
    modules from which a directed path of the dependency graph (of length
    zero or more) leads to a dirty module; every dirty module is selected. *)
Theorem reload_closure_exact recursive adhoc_reimport self ip :
  (check_staleness recursive self ip).1 ≠ ∅ →
  ∃ graph mods,
    _create_module_graph (sys_modules ip)
      (list_to_set (get_module_names recursive (sys_modules ip) (reload self)))
    = Some graph ∧
    modules_to_update
      (_pre_run_cell_maybe_reload recursive adhoc_reimport self ip)
    = Some mods ∧
    (∀ m, m ∈ mods ↔
          m ∈ get_module_names recursive (sys_modules ip) (reload self) ∧
          ∃ d, d ∈ (check_staleness recursive self ip).1 ∧
               rtc (edge graph) m d) ∧
    (∀ d, d ∈ (check_staleness recursive self ip).1 → d ∈ mods).
Proof.
  intros Hdirty.
  pose proof (λ m, check_staleness_dirty recursive self ip m) as Hd.
  unfold _pre_run_cell_maybe_reload.
  destruct (check_staleness recursive self ip) as [dirty last_updates].
  cbn [fst] in *. rewrite decide_False by done.
  destruct (select_modules_to_update_spec recursive ip
              {| reload := reload self; _last_updates := last_updates;
                 _globals_to_update := _globals_to_update self |} dirty)
    as (graph & mods & Hgraph & Hsel & Hmem).
  cbn [reload] in *. exists graph, mods. rewrite Hsel.
  assert (∀ m, m ∈ mods ↔
            m ∈ get_module_names recursive (sys_modules ip) (reload self) ∧
            ∃ d, d ∈ dirty ∧ rtc (edge graph) m d) as Hexact by exact Hmem.
  split_and!.
  - exact Hgraph.
  - destruct (adhoc_reimport (sys_modules ip) mods); [done|].
    by destruct (update_globals _ _ _ _) as [[? ?] ?].
  - exact Hexact.
  - intros d Hin. apply Hexact. split; [by apply Hd in Hin as [? _]|].
    by exists d.
Qed.

Lemma reload_closure_exact_witness :
  (check_staleness true mutual_reloader mutual_session).1 ≠ ∅ ∧
  ∃ mods,
    modules_to_update
      (_pre_run_cell_maybe_reload true fresh_import mutual_reloader
                                  mutual_session) = Some mods ∧
    "a" ∈ mods ∧ "b" ∈ mods.
Proof.
  assert ((check_staleness true mutual_reloader mutual_session).1 ≠ ∅)
    as Hdirty.
  { intros Hempty.
    assert ("a" ∈ (check_staleness true mutual_reloader mutual_session).1)
      as Hin by by_evaluation.
    rewrite Hempty in Hin. exact (not_elem_of_empty _ Hin). }
  split; [exact Hdirty|].
  destruct (reload_closure_exact true fresh_import mutual_reloader
              mutual_session Hdirty)
    as (graph & mods & Hgraph & Hmods & Hexact & Hall).
  exists mods. split; [exact Hmods|].
  assert (_create_module_graph (sys_modules mutual_session)
            (list_to_set (get_module_names true (sys_modules mutual_session)
                                           (reload mutual_reloader)))
          ≫= (λ graph : module_graph, graph !! "b") = Some {["a"]}) as Hb
    by (vm_compute; reflexivity).
  rewrite Hgraph in Hb. cbn [mbind option_bind] in Hb.
  split.
  - apply Hall. by_evaluation.
  - apply Hexact. split; [by_evaluation|].
    exists "a". split; [by_evaluation|].
    apply rtc_once. unfold edge, neighbours. rewrite Hb. set_solver.
Defined.

(** The scenario of two modules that import each other, evaluated: after
    a change to [a] alone the hook reloads [a] and [b], and not [c]. *)
Example mutual_import_closure :
  modules_to_update
    (_pre_run_cell_maybe_reload true fresh_import mutual_reloader
                                mutual_session) = Some ["a"; "b"].
Proof. by vm_compute. Qed.

(** *** The globals of the user namespace *)

Lemma update_global_spec registry mods raised0
    (kernel_globals0 : gmap string obj_id) tracked0 g0 info0 :
  let kernel_globals :=
    (update_global registry mods (raised0, kernel_globals0, tracked0)
                   (g0, info0)).1.2 in
  (∀ g, g ≠ g0 → kernel_globals !! g = kernel_globals0 !! g) ∧
  (kernel_globals !! g0 = kernel_globals0 !! g0 ∨
   (name info0 ∈ mods ∧
    kernel_globals0 !! g0 = Some (instance info0) ∧
    ∃ reloaded_module,
      registry !! name info0 = Some reloaded_module ∧
      kernel_globals !! g0 = Some (module_id reloaded_module))).
Proof.
  cbn zeta. unfold update_global.
  destruct raised0 as [e|]; [by split; [|left]|].
  destruct (bool_decide (name info0 ∈ mods)) eqn:Hmods;
    [|by split; [|left]].
  destruct (bool_decide (kernel_globals0 !! g0 = Some (instance info0)))
    eqn:Hid; [|by split; [|left]].
  apply bool_decide_eq_true in Hmods, Hid. cbn [andb].
  destruct (registry !! name info0) as [reloaded|] eqn:Hreg;
    [|by split; [|left]].
  cbn [fst snd]. split.
  - intros g Hne. by rewrite lookup_insert_ne.
  - right. split_and!; [done..|]. exists reloaded.
    by rewrite lookup_insert_eq.
Qed.

Lemma update_globals_frame registry mods
    (globals_to_update : list (string * _ModuleInfo))
    raised0 (kernel_globals0 : gmap string obj_id) tracked0 g :
  NoDup globals_to_update.*1 →
  let kernel_globals :=
    (update_globals registry mods globals_to_update
       (raised0, kernel_globals0, tracked0)).1.2 in
  (g ∉ globals_to_update.*1 → kernel_globals !! g = kernel_globals0 !! g) ∧
  (∀ info, (g, info) ∈ globals_to_update →
     kernel_globals !! g = kernel_globals0 !! g ∨
     (name info ∈ mods ∧
      kernel_globals0 !! g = Some (instance info) ∧
      ∃ reloaded_module,
        registry !! name info = Some reloaded_module ∧
        kernel_globals !! g = Some (module_id reloaded_module))).
Proof.
  revert raised0 kernel_globals0 tracked0.
  induction globals_to_update as [|[g0 info0] l IH];
    intros raised0 kg0 tracked0 Hnd; cbn zeta.
  - split; [done|]. intros info Hin. by apply elem_of_nil in Hin.
  - rewrite fmap_cons in Hnd. apply NoDup_cons in Hnd as [Hg0 Hnd].
    cbn [fst] in Hg0.
    unfold update_globals. cbn [foldl].
    pose proof (update_global_spec registry mods raised0 kg0 tracked0
                  g0 info0) as [Hother Hhead]. cbn zeta in Hother, Hhead.
    destruct (update_global registry mods (raised0, kg0, tracked0) (g0, info0))
      as [[raised1 kg1] tracked1].
    cbn [fst snd] in Hother, Hhead.
    destruct (IH raised1 kg1 tracked1 Hnd) as [IHout IHin].
    unfold update_globals in IHout, IHin. cbn zeta in IHout, IHin.
    split.
    + intros Hout. rewrite fmap_cons, not_elem_of_cons in Hout.
      destruct Hout as [Hne Hout]. cbn [fst] in Hne.
      rewrite IHout by done. by apply Hother.
    + intros info [Heq|Hin]%elem_of_cons.
      * injection Heq as -> ->. by rewrite IHout.
      * assert (g ≠ g0) as Hne.
        { intros ->. apply Hg0. apply list_elem_of_fmap. by exists (g0, info). }
        rewrite <- (Hother g Hne). by apply IHin.
Qed.

(** C9. The hook rebinds a name of the user namespace only to the module
    object just reloaded, and only if that module was among the reloaded
    ones and the name was still bound to the very object recorded for it;
    a recorded name that has since been bound to anything else keeps its
    binding, and so does every name that was not recorded. *)
Theorem user_globals_rebound_only_if_unchanged
    recursive adhoc_reimport self ip g :
  (user_ns (ip_after (_pre_run_cell_maybe_reload recursive adhoc_reimport
                                                 self ip)) !! g
   ≠ user_ns ip !! g →
   ∃ info mods reloaded_module,
     _globals_to_update self !! g = Some info ∧
     modules_to_update
       (_pre_run_cell_maybe_reload recursive adhoc_reimport self ip)
     = Some mods ∧
     name info ∈ mods ∧
     user_ns ip !! g = Some (instance info) ∧
     sys_modules (ip_after (_pre_run_cell_maybe_reload
                              recursive adhoc_reimport self ip))
       !! name info = Some reloaded_module ∧
     user_ns (ip_after (_pre_run_cell_maybe_reload recursive adhoc_reimport
                                                   self ip)) !! g
     = Some (module_id reloaded_module)) ∧
  (∀ info,
     _globals_to_update self !! g = Some info →
     user_ns ip !! g ≠ Some (instance info) →
     user_ns (ip_after (_pre_run_cell_maybe_reload recursive adhoc_reimport
                                                   self ip)) !! g
     = user_ns ip !! g).
Proof.
  cut (user_ns (ip_after (_pre_run_cell_maybe_reload recursive adhoc_reimport
                                                     self ip)) !! g
       = user_ns ip !! g ∨
       ∃ info mods reloaded_module,
         _globals_to_update self !! g = Some info ∧
         modules_to_update
           (_pre_run_cell_maybe_reload recursive adhoc_reimport self ip)
         = Some mods ∧
         name info ∈ mods ∧
         user_ns ip !! g = Some (instance info) ∧
         sys_modules (ip_after (_pre_run_cell_maybe_reload
                                  recursive adhoc_reimport self ip))
           !! name info = Some reloaded_module ∧
         user_ns (ip_after (_pre_run_cell_maybe_reload
                              recursive adhoc_reimport self ip)) !! g
         = Some (module_id reloaded_module)).
  { intros [Hsame|(info & mods & reloaded & Hinfo & Hrest)].
    - split; [done|]. by intros.
    - split; [naive_solver|].
      intros info' Hinfo' Hrebound. naive_solver. }
  unfold _pre_run_cell_maybe_reload.
  destruct (check_staleness recursive self ip) as [dirty last_updates].
  case_decide; [by left|].
  destruct (select_modules_to_update _ _ _ _) as [mods|]; [|by left].
  destruct (adhoc_reimport (sys_modules ip) mods) as [e|registry]; [by left|].
  cbn [_globals_to_update].
  pose proof (update_globals_frame registry mods
                (map_to_list (_globals_to_update self)) None (user_ns ip)
                (_globals_to_update self) g
                (NoDup_fst_map_to_list _)) as [Hout Hin].
  cbn zeta in Hout, Hin.
  destruct (update_globals _ _ _ _) as [[raised kernel_globals] tracked].
  cbn [fst snd] in Hout, Hin. cbn.
  destruct (_globals_to_update self !! g) as [info|] eqn:Hinfo.
  - destruct (Hin info) as [?|(Hmods & Hid & reloaded & Hreg & Hnew)];
      [by apply elem_of_map_to_list|by left|].
    right. by exists info, mods, reloaded.
  - left. apply Hout. intros ([g' info] & -> & Hg)%list_elem_of_fmap.
    apply elem_of_map_to_list in Hg. cbn in Hinfo. congruence.
Qed.

(** The hook on the session of the mutually importing modules: [a] is
    rebound to the new module object; [b], which the user has rebound, and
    [c], which is not reloaded, keep their bindings. *)
Example mutual_import_globals :
  user_ns (ip_after (_pre_run_cell_maybe_reload true fresh_import
                       mutual_reloader mutual_session))
  = {[ "a" := 11; "b" := 9; "c" := 3 ]}.
Proof. by vm_compute. Qed.

End CellAutoreloadProofs.

Module InplaceReloadProofs.
Import InplaceReload.

(** *** Attribute lookup *)

Lemma lookup_attr_agree (h h' : heap) holders name :
  (∀ a, a ∈ holders →
        h' !! a ≫= (λ o, ob_attrs o !! name)
        = h !! a ≫= (λ o, ob_attrs o !! name)) →
  lookup_attr h' holders name = lookup_attr h holders name.
Proof.
  unfold lookup_attr.
  induction holders as [|a holders IH]; intros Hagree; [done|].
  cbn [foldr]. rewrite Hagree by set_solver. rewrite IH; [done|].
  intros b Hb. apply Hagree. set_solver.
Qed.

Lemma getattr_agree (h h' : heap) obj name :
  ob_mro <$> h' !! obj = ob_mro <$> h !! obj →
  (∀ a, h' !! a ≫= (λ o, ob_attrs o !! name)
        = h !! a ≫= (λ o, ob_attrs o !! name)) →
  getattr h' obj name = getattr h obj name.
Proof.
  intros Hmro Hagree. unfold getattr.
  destruct (h !! obj) as [o|], (h' !! obj) as [o'|]; try done.
  injection Hmro as Hmro. cbn [mbind option_bind]. rewrite Hmro.
  apply lookup_attr_agree. auto.
Qed.


(** *** The dispatcher *)

(** C10. When [old] and [new] are the same object, or when no type of
    [_UPDATE_RULES] has both as instances, [_update_generic] returns
    without raising and leaves the heap as it is: a symbol that was a
    function and is now a class is not patched. *)
Theorem update_generic_leaves_unrelated depth h old new :
  old = new ∨
  (∀ t, ¬ (isinstance h old t = true ∧ isinstance h new t = true)) →
  _update_generic depth old new h = Ok tt h.
Proof.
  intros Hcase.
  assert (∀ update_generic,
            (if decide (old = new) then Ok tt h
             else match find (λ rule, isinstance h old rule.1
                                      && isinstance h new rule.1)
                             (_UPDATE_RULES update_generic) with
                  | Some (_, update) => update old new h
                  | None => Ok tt h
                  end) = Ok tt h) as Hstep.
  { intros update_generic. case_decide; [done|].
    destruct Hcase as [?|Hnone]; [done|].
    assert (∀ t, isinstance h old t && isinstance h new t = false) as Hno.
    { intros t. apply not_true_is_false. rewrite andb_true_iff. apply Hnone. }
    cbn. by rewrite !Hno. }
  destruct depth; apply Hstep.
Qed.

Lemma update_generic_leaves_unrelated_witness :
  (1 = 3 ∨
   ∀ t, ¬ (isinstance function_then_class 1 t = true ∧
           isinstance function_then_class 3 t = true)) ∧
  _update_generic 5 1 3 function_then_class = Ok tt function_then_class.
Proof.
  assert (∀ t, ¬ (isinstance function_then_class 1 t = true ∧
                  isinstance function_then_class 3 t = true)) as Hkinds.
  { intros t [H1 H3]. destruct t; vm_compute in H1, H3; congruence. }
  split; [by right|].
  apply update_generic_leaves_unrelated. by right.
Defined.

(** *** Frames *)

Lemma same_shape_refl o : same_shape o o.
Proof. by repeat split. Qed.

Lemma same_shape_trans o1 o2 o3 :
  same_shape o1 o2 → same_shape o2 o3 → same_shape o1 o3.
Proof.
  intros (?&?&?&?&?) (?&?&?&?&?). repeat split; congruence.
Qed.



























(** *** Functions *)

Lemma for_each_cons {A} (body : A → heap → result unit) x l h :
  for_each body (x :: l) h
  = match body x h with
    | Ok _ h => for_each body l h
    | Raise e h => Raise e h
    end.
Proof. unfold for_each. cbn. by destruct (body x h) as [[] ?|]. Qed.

Lemma with_attrs_id o : with_attrs (ob_attrs o) o = o.
Proof. by destruct o. Qed.

Lemma getattr_other_name h obj o name v x name' :
  h !! obj = Some o → name' ≠ name →
  getattr (<[obj := with_attrs (<[name := v]> (ob_attrs o)) o]> h) x name'
  = getattr h x name'.
Proof.
  intros Hobj Hne. apply getattr_agree.
  - destruct (decide (x = obj)) as [->|]; [|by rewrite lookup_insert_ne].
    by rewrite lookup_insert_eq, Hobj.
  - intros a. destruct (decide (a = obj)) as [->|]; [|by rewrite lookup_insert_ne].
    rewrite lookup_insert_eq, Hobj. cbn. by rewrite lookup_insert_ne.
Qed.

Lemma try_copy_attr_spec h old new o name :
  h !! old = Some o →
  (∀ v e, getattr h new name = Some v →
          ob_setattr_raises o name v = Some e → caught e = true) →
  try_copy_attr old new name h
  = Ok tt (<[old := with_attrs
                      (match copied_attr h o new name with
                       | Some v => <[name := v]> (ob_attrs o)
                       | None => ob_attrs o
                       end) o]> h).
Proof.
  intros Hold Hcaught. unfold try_copy_attr, copied_attr, setattr.
  destruct (getattr h new name) as [v|]; cbn.
  - rewrite Hold.
    destruct (ob_setattr_raises o name v) as [e|] eqn:He; cbn; [|done].
    rewrite (Hcaught v e) by done.
    by rewrite with_attrs_id, insert_id.
  - by rewrite with_attrs_id, insert_id.
Qed.

Lemma copy_attrs_spec old new names :
  NoDup names →
  ∀ h o,
    h !! old = Some o →
    (∀ name v e, name ∈ names → getattr h new name = Some v →
                 ob_setattr_raises o name v = Some e → caught e = true) →
    ∃ o',
      for_each (try_copy_attr old new) names h = Ok tt (<[old := o']> h) ∧
      same_shape o o' ∧ ob_class o' = ob_class o ∧
      ∀ name,
        ob_attrs o' !! name =
        if decide (name ∈ names)
        then from_option Some (ob_attrs o !! name) (copied_attr h o new name)
        else ob_attrs o !! name.
Proof.
  induction 1 as [|n names Hn Hnd IH]; intros h o Hold Hcaught.
  - exists o. split_and!; [by rewrite insert_id|apply same_shape_refl|done|].
    intros name. by rewrite decide_False by set_solver.
  - rewrite for_each_cons, (try_copy_attr_spec h old new o n Hold)
      by (intros v e; apply Hcaught; set_solver).
    set (o1 := with_attrs _ o).
    assert (∀ name, name ≠ n →
              ob_attrs o1 !! name = ob_attrs o !! name) as Hattrs1.
    { intros name Hne. subst o1. cbn.
      destruct (copied_attr h o new n); [|done]. by rewrite lookup_insert_ne. }
    assert (∀ name, name ≠ n →
              getattr (<[old := o1]> h) new name = getattr h new name)
      as Hget.
    { intros name Hne. subst o1.
      destruct (copied_attr h o new n).
      - by apply getattr_other_name.
      - by rewrite with_attrs_id, insert_id. }
    destruct (IH (<[old := o1]> h) o1) as (o' & Hrun & Hshape & Hclass & Hattrs).
    { by rewrite lookup_insert_eq. }
    { intros name v e Hin Hv He. rewrite Hget in Hv by set_solver.
      apply (Hcaught name v e); [set_solver|done..]. }
    exists o'. rewrite Hrun, insert_insert_eq.
    split_and!; [done| |done|].
    { eapply same_shape_trans; [|exact Hshape]. by repeat split. }
    intros name. rewrite Hattrs.
    destruct (decide (name = n)) as [->|Hne].
    + rewrite decide_False by done. rewrite decide_True by set_solver.
      subst o1. cbn. destruct (copied_attr h o new n); [|done].
      by rewrite lookup_insert_eq.
    + destruct (decide (name ∈ names)).
      * rewrite decide_True by set_solver.
        rewrite Hattrs1 by done. unfold copied_attr.
        rewrite Hget by done. done.
      * rewrite decide_False by set_solver. by apply Hattrs1.
Qed.




(** *** The snapshot of a module *)














(** *** Classes *)







Lemma retype_spec old new refs :
  NoDup refs →
  ∀ h h',
    for_each (λ ref h,
                if decide (ob_class <$> h !! ref = Some old)
                then set_class ref new h else Ok tt h)
             refs h = Ok tt h' →
    ∀ a, h' !! a =
         if decide (a ∈ refs)
         then (λ o, if decide (ob_class o = old) then with_class new o else o)
                <$> h !! a
         else h !! a.
Proof.
  induction 1 as [|ref refs Href Hnd IH]; intros h h' Hrun a.
  - injection Hrun as <-. by rewrite decide_False by set_solver.
  - rewrite for_each_cons in Hrun.
    assert (∃ h1,
              for_each (λ ref h,
                          if decide (ob_class <$> h !! ref = Some old)
                          then set_class ref new h else Ok tt h)
                       refs h1 = Ok tt h' ∧
              h1 !! ref
              = (λ o, if decide (ob_class o = old)
                      then with_class new o else o) <$> h !! ref ∧
              ∀ b, b ≠ ref → h1 !! b = h !! b) as (h1 & Hrest & Href1 & Hoth).
    { destruct (decide (ob_class <$> h !! ref = Some old)) as [Hclass|Hclass].
      - unfold set_class in Hrun.
        destruct (h !! ref) as [o|] eqn:Ho; [|done].
        injection Hclass as Hclass.
        destruct (ob_setattr_raises o "__class__" new); [done|].
        eexists. split; [exact Hrun|]. split.
        + rewrite lookup_insert_eq. cbn. by rewrite decide_True.
        + intros b Hb. by rewrite lookup_insert_ne.
      - exists h. split; [exact Hrun|]. split; [|done].
        destruct (h !! ref) as [o|]; [|done]. cbn.
        rewrite decide_False; [done|]. intros Ho. apply Hclass. cbn. by f_equal. }
    rewrite (IH h1 h' Hrest a).
    destruct (decide (a = ref)) as [->|Hne].
    + rewrite decide_False by done. rewrite decide_True by set_solver. done.
    + rewrite Hoth by done. destruct (decide (a ∈ refs)).
      * rewrite decide_True by set_solver. done.
      * rewrite decide_False by set_solver. done.
Qed.

Lemma update_instances_spec old new h h' :
  _update_instances old new h = Ok tt h' →
  ∀ a, h' !! a =
       (λ o, if decide (ob_class o = old) then with_class new o else o)
         <$> h !! a.
Proof.
  intros Hrun a. unfold _update_instances in Hrun.
  rewrite (retype_spec old new (gc_get_referrers h old)
             (NoDup_fst_map_to_list _) h h' Hrun a).
  case_decide as Hin; [done|].
  destruct (h !! a) as [o|] eqn:Ha; [|done]. cbn.
  rewrite decide_False; [done|]. intros Hclass. apply Hin.
  unfold gc_get_referrers. apply list_elem_of_fmap. exists (a, o).
  split; [done|]. apply elem_of_map_to_list, map_lookup_filter_Some.
  split; [done|]. by left.
Qed.




(** The pass on the module whose function [f] has been renamed [g]: the
    one module version that resolves is kept, [f] has no entry, and the
    entry of [g] is empty, its only reference being dead. *)
Example renamed_function_pass :
  ∃ h',
    update_refs_with_new_module renamed_function_refs 5 4 renamed_function
    = Ok {| modules := [6]; objs := {[ "g" := [] ]} |} h' ∧
    namespace h' 6 = {[ "g" := 2 ]}.
Proof. eexists. split; by vm_compute. Qed.

(** A class that refers to itself is updated again from within its own
    update, until the interpreter refuses to go deeper. *)
Example self_reference_exhausts_depth :
  match _update_generic 5 1 2 self_referring with
  | Raise RecursionError _ => True
  | _ => False
  end.
Proof. by vm_compute. Qed.

End InplaceReloadProofs.

Module CellAutoreloadMore.
Import CellAutoreload CellAutoreloadProofs.

(** *** The dependency graph *)

Lemma elem_of_module_deps module nodes b :
  b ∈ module_deps module nodes ↔
  b ∈ nodes ∧ ∃ key, __dict__ module !! key = Some (module_value b).
Proof.
  unfold module_deps. rewrite elem_of_list_to_set, list_elem_of_omap.
  split.
  - intros (val & Hval & Hsome).
    apply list_elem_of_fmap in Hval as ([key val'] & -> & Hin).
    apply elem_of_map_to_list in Hin. cbn in Hsome.
    destruct val' as [val__name__|]; [|done].
    case_decide; [|done]. injection Hsome as ->. eauto.
  - intros (Hnodes & key & Hkey). exists (module_value b). split.
    + apply list_elem_of_fmap. exists (key, module_value b).
      split; [done|]. by apply elem_of_map_to_list.
    + by rewrite decide_True.
Qed.

Lemma create_module_graph_fold_none (registry : gmap string module)
    (nodes : gset string) (sources : list string) :
  foldl (λ graph source,
           graph ← graph;
           module ← registry !! source;
           Some (<[source := module_deps module nodes]> graph))
        (None : option module_graph) sources = None.
Proof. induction sources as [|s sources IH]; [done|]. exact IH. Qed.

Lemma create_module_graph_fold_missing (registry : gmap string module)
    (nodes : gset string) (sources : list string)
    (graph0 : option module_graph) source :
  source ∈ sources → registry !! source = None →
  foldl (λ graph source,
           graph ← graph;
           module ← registry !! source;
           Some (<[source := module_deps module nodes]> graph))
        graph0 sources = None.
Proof.
  revert graph0. induction sources as [|s sources IH];
    intros graph0 Hin Hmissing; [by apply elem_of_nil in Hin|].
  cbn [foldl]. apply elem_of_cons in Hin as [<-|Hin].
  - destruct graph0 as [graph0|]; cbn; [rewrite Hmissing; cbn|];
      apply create_module_graph_fold_none.
  - by apply IH.
Qed.

(** X1. [_create_module_graph] on a set of loaded modules returns a graph
    whose keys are the given nodes, in which [a] has an edge to [b]
    exactly when both are nodes and the namespace of [a] binds a module
    object named [b]; if one of the nodes is not in [sys.modules], it
    fails ([KeyError]). *)
Theorem create_module_graph_edges (registry : gmap string module)
    (nodes : gset string) :
  ((∀ n, n ∈ nodes → is_Some (registry !! n)) →
   ∃ graph,
     _create_module_graph registry nodes = Some graph ∧
     dom graph = nodes ∧
     ∀ a b, edge graph a b ↔
            a ∈ nodes ∧ b ∈ nodes ∧
            ∃ module key,
              registry !! a = Some module ∧
              __dict__ module !! key = Some (module_value b)) ∧
  (∀ n, n ∈ nodes → registry !! n = None →
        _create_module_graph registry nodes = None).
Proof.
  split.
  - intros Hloaded.
    destruct (create_module_graph_spec registry nodes Hloaded)
      as (graph & Hgraph & Hlookup).
    exists graph. split; [done|]. split.
    + apply set_eq. intros a. rewrite elem_of_dom, Hlookup.
      case_decide as Ha; [|split; [by intros [? ?]|done]].
      destruct (Hloaded a Ha) as [module ->]. split; [done|]. by eexists.
    + intros a b. unfold edge, neighbours. rewrite Hlookup.
      case_decide as Ha; [|cbn; set_solver].
      destruct (Hloaded a Ha) as [module Hmodule]. rewrite Hmodule. cbn.
      rewrite elem_of_module_deps. split.
      * intros (Hb & key & Hkey). by eauto 6.
      * intros (_ & Hb & module' & key & Hmodule' & Hkey).
        injection Hmodule' as <-. eauto.
  - intros n Hn Hmissing. unfold _create_module_graph.
    apply (create_module_graph_fold_missing registry nodes _ _ n);
      [by apply elem_of_elements|done].
Qed.

(** *** Memoization *)

Lemma size_universe_pos (self : _ModuleSearch) source :
  0 < size (universe self source).
Proof.
  unfold universe.
  assert (size ({[source]} ∪ graph_nodes (_graph self)) ≠ 0); [|lia].
  intros Hzero%size_empty_inv. set_solver.
Qed.

(** X2. The cache of a search is transparent. On any instance,
    [reaches_targets] answers as a fresh instance would; and asking the
    same question again gives the same answer and leaves the instance as
    it is. *)
Theorem reaches_targets_memoized targets graph self source ret self' :
  search_instance targets graph self →
  reaches_targets self source = Some (ret, self') →
  _reaches_targets (new_search targets graph) source = Some ret ∧
  reaches_targets self' source = Some (ret, self').
Proof.
  intros Hinstance Hcall.
  destruct (search_instance_sound targets graph self Hinstance)
    as (Hg & Ht & Hcache).
  destruct (reaches_targets_spec self source Hcache)
    as (ret1 & self1 & Hcall1 & Hret1 & _).
  rewrite Hcall in Hcall1. injection Hcall1 as <- <-.
  split.
  - destruct (reaches_targets_spec (new_search targets graph) source
                (cache_sound_fresh _ _))
      as (ret0 & self0 & Hcall0 & Hret0 & _).
    unfold reaches_targets in Hcall0.
    destruct (_reaches_targets (new_search targets graph) source)
      as [ret0'|]; [|done].
    cbn in Hcall0. injection Hcall0 as -> _. f_equal.
    cbn in Hret0. rewrite Hg, Ht in Hret1.
    destruct ret, ret0; try done; naive_solver.
  - unfold reaches_targets in Hcall.
    destruct (_reaches_targets self source) as [ret'|]; [|done].
    cbn in Hcall. injection Hcall as -> <-.
    unfold reaches_targets, _reaches_targets, search_fuel.
    cbn [_graph _cache _targets].
    fold (universe self source).
    pose proof (size_universe_pos self source) as Hpos.
    destruct (size (universe self source)) as [|fuel]; [lia|].
    cbn [while_queue loop_body _cache]. rewrite lookup_insert_eq.
    destruct ret; cbn; by rewrite insert_insert_eq.
Qed.

Lemma reaches_targets_memoized_witness :
  search_instance {["a"]} small_graph (new_search {["a"]} small_graph) ∧
  ∃ self',
    reaches_targets (new_search {["a"]} small_graph) "b"
    = Some (true, self') ∧
    reaches_targets self' "b" = Some (true, self').
Proof.
  split; [constructor|].
  assert (∃ self', reaches_targets (new_search {["a"]} small_graph) "b"
                   = Some (true, self')) as [self' Hcall]
    by (eexists; by vm_compute).
  exists self'. split; [done|].
  by destruct (reaches_targets_memoized {["a"]} small_graph _ "b" true self'
                 (search_fresh _ _) Hcall).
Defined.

(** *** [register] and the idle hook *)

Lemma register_fold ip module_names (last_updates : gmap string (option Z)) m :
  foldl (λ last_updates module_name,
           <[module_name := _get_last_module_update ip module_name]>
             last_updates)
        last_updates module_names !! m
  = if decide (m ∈ module_names)
    then Some (_get_last_module_update ip m) else last_updates !! m.
Proof.
  revert last_updates.
  induction module_names as [|n names IH]; intros last_updates.
  - by rewrite decide_False by set_solver.
  - cbn [foldl]. rewrite IH. destruct (decide (m ∈ names)).
    + by rewrite decide_True by set_solver.
    + destruct (decide (m = n)) as [->|Hne].
      * rewrite decide_True by set_solver. by rewrite lookup_insert_eq.
      * rewrite decide_False by set_solver. by rewrite lookup_insert_ne.
Qed.

Lemma register_spec recursive self ip self' :
  register recursive self ip = inr self' →
  reload self' = reload self ∧
  _globals_to_update self' = _globals_to_update self ∧
  ∀ m, _last_updates self' !! m =
       if decide (m ∈ get_module_names recursive (sys_modules ip)
                        (reload self))
       then Some (_get_last_module_update ip m)
       else _last_updates self !! m.
Proof.
  unfold register. destruct (reload self) eqn:Hreload; [done|].
  intros [= <-]. cbn. split_and!; [done..|].
  intros m. apply register_fold.
Qed.

(** X3. [register] raises [ValueError] when no module is given to watch.
    Otherwise it records, for every watched module, the modification time
    that [_get_last_module_update] reads now ([None] when there is none),
    and leaves the other entries, the prefixes and the recorded globals as
    they are. *)
Theorem register_records_timestamps recursive self ip :
  (reload self = [] → register recursive self ip = inl ValueError) ∧
  (reload self ≠ [] →
   ∃ self',
     register recursive self ip = inr self' ∧
     reload self' = reload self ∧
     _globals_to_update self' = _globals_to_update self ∧
     ∀ m, _last_updates self' !! m =
          if decide (m ∈ get_module_names recursive (sys_modules ip)
                           (reload self))
          then Some (_get_last_module_update ip m)
          else _last_updates self !! m).
Proof.
  split.
  - intros Hempty. unfold register. by rewrite Hempty.
  - intros Hprefixes.
    assert (∃ self', register recursive self ip = inr self') as [self' Hreg].
    { unfold register. destruct (reload self); [done|]. by eexists. }
    exists self'. split; [done|]. by apply register_spec.
Qed.

Lemma hook_idle recursive adhoc_reimport self ip :
  (check_staleness recursive self ip).1 = ∅ →
  _pre_run_cell_maybe_reload recursive adhoc_reimport self ip
  = {| raised := None; modules_to_update := None;
       reloader := checked recursive self ip; ip_after := ip |}.
Proof.
  intros Hclean. unfold _pre_run_cell_maybe_reload, checked.
  destruct (check_staleness recursive self ip) as [dirty last_updates].
  cbn in Hclean. by rewrite decide_True.
Qed.

Lemma nothing_dirty recursive self ip :
  (∀ m, m ∈ get_module_names recursive (sys_modules ip) (reload self) →
        ∃ prev, last_update (_last_updates self) m = Some prev ∧
                ∀ new, _get_last_module_update ip m = Some new →
                       (new ≤ prev)%Z) →
  (check_staleness recursive self ip).1 = ∅.
Proof.
  intros Hfresh. apply set_eq. intros m.
  rewrite check_staleness_dirty. split; [|set_solver].
  intros [Hin Hdirty]. destruct (Hfresh m Hin) as (prev & Hprev & Hle).
  destruct Hdirty as [Hnone|(prev' & new & Hprev' & Hnew & Hgt)];
    [congruence|].
  rewrite Hprev in Hprev'. injection Hprev' as <-.
  specialize (Hle new Hnew). lia.
Qed.

(** X4. When every watched module has a recorded modification time and
    none of the files is newer than what is recorded (a file that cannot
    be stat-ed any more counts as not newer), the hook reloads nothing: it
    raises nothing, does not call the import machinery, and leaves
    [sys.modules], the user namespace and the recorded globals as they
    are; it only stores the timestamps it has just read. *)
Theorem hook_idle_when_nothing_newer recursive adhoc_reimport self ip :
  (∀ m, m ∈ get_module_names recursive (sys_modules ip) (reload self) →
        ∃ prev, last_update (_last_updates self) m = Some prev ∧
                ∀ new, _get_last_module_update ip m = Some new →
                       (new ≤ prev)%Z) →
  _pre_run_cell_maybe_reload recursive adhoc_reimport self ip
  = {| raised := None; modules_to_update := None;
       reloader := checked recursive self ip; ip_after := ip |}.
Proof. intros Hfresh. by apply hook_idle, nothing_dirty. Qed.

Lemma checked_registered recursive self ip self' :
  register recursive self ip = inr self' →
  checked recursive self' ip = self'.
Proof.
  intros (Hreload & Hglobals & Hstored)%register_spec.
  unfold checked. destruct self' as [prefixes last_updates globals].
  cbn in *. f_equal. apply map_eq. intros m.
  rewrite check_staleness_stored. cbn [reload _last_updates].
  rewrite Hreload, Hstored. by case_decide.
Qed.

(** X5. Right after [register], with the session unchanged, the hook
    finds dirty exactly the watched modules for which no modification time
    could be read; when a time could be read for every watched module, it
    reloads nothing and leaves the session and the reloader as they are. *)
Theorem hook_after_register recursive adhoc_reimport self ip self' :
  register recursive self ip = inr self' →
  (∀ m, m ∈ (check_staleness recursive self' ip).1 ↔
        m ∈ get_module_names recursive (sys_modules ip) (reload self) ∧
        _get_last_module_update ip m = None) ∧
  ((∀ m, m ∈ get_module_names recursive (sys_modules ip) (reload self) →
         is_Some (_get_last_module_update ip m)) →
   _pre_run_cell_maybe_reload recursive adhoc_reimport self' ip
   = {| raised := None; modules_to_update := None;
        reloader := self'; ip_after := ip |}).
Proof.
  intros Hreg.
  pose proof (register_spec recursive self ip self' Hreg)
    as (Hreload & _ & Hstored).
  assert (∀ m, m ∈ get_module_names recursive (sys_modules ip) (reload self) →
               last_update (_last_updates self') m
               = _get_last_module_update ip m) as Hlast.
  { intros m Hin. unfold last_update. by rewrite Hstored, decide_True. }
  split.
  - intros m. rewrite check_staleness_dirty, Hreload. split.
    + intros [Hin Hdirty]. split; [done|]. rewrite Hlast in Hdirty by done.
      destruct Hdirty as [?|(prev & new & -> & [= ->] & ?)]; [done|lia].
    + intros [Hin Hnone]. split; [done|]. left. by rewrite Hlast.
  - intros Havailable. rewrite hook_idle.
    + by rewrite (checked_registered recursive self).
    + apply nothing_dirty. intros m Hin. rewrite Hreload in Hin.
      destruct (Havailable m Hin) as [t Ht]. exists t.
      rewrite Hlast, Ht by done. split; [done|]. intros new [= <-]. lia.
Qed.

Lemma hook_idle_when_nothing_newer_witness :
  (∀ m, m ∈ get_module_names true (sys_modules mutual_session)
              (reload (checked true mutual_reloader mutual_session)) →
        ∃ prev,
          last_update (_last_updates
                         (checked true mutual_reloader mutual_session)) m
          = Some prev ∧
          ∀ new, _get_last_module_update mutual_session m = Some new →
                 (new ≤ prev)%Z) ∧
  user_ns (ip_after (_pre_run_cell_maybe_reload true fresh_import
                       (checked true mutual_reloader mutual_session)
                       mutual_session))
  = user_ns mutual_session.
Proof.
  assert (∀ m, m ∈ get_module_names true (sys_modules mutual_session)
                     (reload (checked true mutual_reloader mutual_session)) →
               ∃ prev,
                 last_update (_last_updates
                                (checked true mutual_reloader mutual_session))
                             m = Some prev ∧
                 ∀ new, _get_last_module_update mutual_session m = Some new →
                        (new ≤ prev)%Z) as Hfresh.
  { intros m Hin.
    rewrite (last_updates_checked true mutual_session mutual_reloader m Hin).
    assert (get_module_names true (sys_modules mutual_session)
              (reload (checked true mutual_reloader mutual_session))
            = ["c"; "a"; "b"]) as Hnames by (by vm_compute).
    rewrite Hnames in Hin.
    repeat (apply elem_of_cons in Hin as [->|Hin]);
      [eexists; split; [by vm_compute|];
       intros new Hnew; vm_compute in Hnew; injection Hnew as <-; done..|].
    by apply elem_of_nil in Hin. }
  split; [exact Hfresh|].
  by rewrite (hook_idle_when_nothing_newer true fresh_import _ _ Hfresh).
Defined.

Lemma hook_after_register_witness :
  ∃ self',
    register true mutual_reloader mutual_session = inr self' ∧
    _pre_run_cell_maybe_reload true fresh_import self' mutual_session
    = {| raised := None; modules_to_update := None;
         reloader := self'; ip_after := mutual_session |}.
Proof.
  assert (∃ self', register true mutual_reloader mutual_session = inr self')
    as [self' Hreg] by (by eexists).
  exists self'. split; [exact Hreg|].
  apply (hook_after_register true fresh_import mutual_reloader mutual_session
           self' Hreg).
  intros m Hin.
  assert (get_module_names true (sys_modules mutual_session)
            (reload mutual_reloader) = ["c"; "a"; "b"]) as Hnames
    by (by vm_compute).
  rewrite Hnames in Hin.
  repeat (apply elem_of_cons in Hin as [->|Hin]); [vm_compute; by eexists..|].
  by apply elem_of_nil in Hin.
Defined.

(** *** A failed import *)



(** *** The globals after a reload *)

Lemma update_globals_raised registry mods globals_to_update e
    (kernel_globals : gmap string obj_id) tracked :
  update_globals registry mods globals_to_update
                 (Some e, kernel_globals, tracked)
  = (Some e, kernel_globals, tracked).
Proof.
  unfold update_globals.
  induction globals_to_update as [|[g info] l IH]; [done|]. exact IH.
Qed.

Lemma update_globals_complete registry mods
    (globals_to_update : list (string * _ModuleInfo)) :
  NoDup globals_to_update.*1 →
  ∀ (kernel_globals0 kernel_globals : gmap string obj_id)
    (tracked0 tracked : gmap string _ModuleInfo),
    update_globals registry mods globals_to_update
                   (None, kernel_globals0, tracked0)
    = (None, kernel_globals, tracked) →
    (∀ g, g ∉ globals_to_update.*1 →
          kernel_globals !! g = kernel_globals0 !! g ∧
          tracked !! g = tracked0 !! g) ∧
    (∀ g info, (g, info) ∈ globals_to_update →
       if bool_decide (name info ∈ mods)
          && bool_decide (kernel_globals0 !! g = Some (instance info))
       then ∃ reloaded_module,
              registry !! name info = Some reloaded_module ∧
              kernel_globals !! g = Some (module_id reloaded_module) ∧
              tracked !! g
              = Some {| name := name info;
                        instance := module_id reloaded_module |}
       else kernel_globals !! g = kernel_globals0 !! g ∧
            tracked !! g = tracked0 !! g).
Proof.
  induction globals_to_update as [|[g0 info0] l IH];
    intros Hnd kg0 kg tr0 tr Hrun.
  - injection Hrun as <- <-. split; [done|].
    intros g info Hin. by apply elem_of_nil in Hin.
  - rewrite fmap_cons in Hnd. apply NoDup_cons in Hnd as [Hg0 Hnd].
    cbn [fst] in Hg0. unfold update_globals in Hrun. cbn [foldl] in Hrun.
    fold (update_globals registry mods l
            (update_global registry mods (None, kg0, tr0) (g0, info0)))
      in Hrun.
    assert (∃ kg1 tr1,
              update_global registry mods (None, kg0, tr0) (g0, info0)
              = (None, kg1, tr1) ∧
              (∀ g, g ≠ g0 → kg1 !! g = kg0 !! g ∧ tr1 !! g = tr0 !! g) ∧
              if bool_decide (name info0 ∈ mods)
                 && bool_decide (kg0 !! g0 = Some (instance info0))
              then ∃ reloaded_module,
                     registry !! name info0 = Some reloaded_module ∧
                     kg1 !! g0 = Some (module_id reloaded_module) ∧
                     tr1 !! g0
                     = Some {| name := name info0;
                               instance := module_id reloaded_module |}
              else kg1 !! g0 = kg0 !! g0 ∧ tr1 !! g0 = tr0 !! g0)
      as (kg1 & tr1 & Hstep & Hother & Hhead).
    { cbn [update_global] in Hrun |- *.
      destruct (bool_decide (name info0 ∈ mods)
                && bool_decide (kg0 !! g0 = Some (instance info0))).
      - destruct (registry !! name info0) as [reloaded|].
        + eexists _, _. split; [done|]. split.
          * intros g Hne. by rewrite !lookup_insert_ne.
          * exists reloaded. by rewrite !lookup_insert_eq.
        + by rewrite update_globals_raised in Hrun.
      - by eexists _, _. }
    rewrite Hstep in Hrun.
    destruct (IH Hnd kg1 kg tr1 tr Hrun) as [IHout IHin].
    split.
    + intros g Hout. rewrite fmap_cons, not_elem_of_cons in Hout.
      destruct Hout as [Hne Hout]. cbn [fst] in Hne.
      destruct (IHout g Hout) as [-> ->]. by apply Hother.
    + intros g info [Heq|Hin]%elem_of_cons.
      * injection Heq as -> ->.
        destruct (IHout g0 Hg0) as [-> ->]. exact Hhead.
      * assert (g ≠ g0) as Hne.
        { intros ->. apply Hg0. apply list_elem_of_fmap. by exists (g0, info). }
        specialize (IHin g info Hin).
        destruct (Hother g Hne) as [Hkg Htr]. by rewrite Hkg, Htr in IHin.
Qed.

Lemma hook_success recursive adhoc_reimport self ip mods :
  raised (_pre_run_cell_maybe_reload recursive adhoc_reimport self ip)
  = None →
  modules_to_update
    (_pre_run_cell_maybe_reload recursive adhoc_reimport self ip)
  = Some mods →
  ∃ registry,
    adhoc_reimport (sys_modules ip) mods = inr registry ∧
    sys_modules (ip_after (_pre_run_cell_maybe_reload
                             recursive adhoc_reimport self ip)) = registry ∧
    update_globals registry mods (map_to_list (_globals_to_update self))
                   (None, user_ns ip, _globals_to_update self)
    = (None,
       user_ns (ip_after (_pre_run_cell_maybe_reload
                            recursive adhoc_reimport self ip)),
       _globals_to_update
         (reloader (_pre_run_cell_maybe_reload
                      recursive adhoc_reimport self ip))).
Proof.
  unfold _pre_run_cell_maybe_reload.
  destruct (check_staleness recursive self ip) as [dirty last_updates].
  case_decide; [done|].
  destruct (select_modules_to_update _ _ _ _) as [mods'|]; [|done].
  cbn [_globals_to_update].
  destruct (adhoc_reimport (sys_modules ip) mods') as [e|registry] eqn:Himport;
    [done|].
  destruct (update_globals _ _ _ _) as [[raised' kernel_globals] tracked]
    eqn:Hglobals.
  cbn. intros -> [= <-]. exists registry. by rewrite Himport.
Qed.

(** X7. When the hook has reloaded modules and raised nothing: every
    recorded global whose module was reloaded and that was still bound to
    the recorded module object is now bound to the module object that
    [sys.modules] holds under that name, and this object is what is
    recorded for it from now on, so that the next reload rebinds it again;
    every other recorded global keeps its binding and its record. *)
Theorem hook_rebinds_and_records recursive adhoc_reimport self ip mods
    g info :
  raised (_pre_run_cell_maybe_reload recursive adhoc_reimport self ip)
  = None →
  modules_to_update
    (_pre_run_cell_maybe_reload recursive adhoc_reimport self ip)
  = Some mods →
  _globals_to_update self !! g = Some info →
  if bool_decide (name info ∈ mods)
     && bool_decide (user_ns ip !! g = Some (instance info))
  then ∃ reloaded_module,
         sys_modules (ip_after (_pre_run_cell_maybe_reload
                                  recursive adhoc_reimport self ip))
           !! name info = Some reloaded_module ∧
         user_ns (ip_after (_pre_run_cell_maybe_reload
                              recursive adhoc_reimport self ip)) !! g
         = Some (module_id reloaded_module) ∧
         _globals_to_update
           (reloader (_pre_run_cell_maybe_reload
                        recursive adhoc_reimport self ip)) !! g
         = Some {| name := name info;
                   instance := module_id reloaded_module |}
  else user_ns (ip_after (_pre_run_cell_maybe_reload
                            recursive adhoc_reimport self ip)) !! g
       = user_ns ip !! g ∧
       _globals_to_update
         (reloader (_pre_run_cell_maybe_reload
                      recursive adhoc_reimport self ip)) !! g
       = Some info.
Proof.
  intros Hraised Hmods Hinfo.
  destruct (hook_success recursive adhoc_reimport self ip mods Hraised Hmods)
    as (registry & _ & Hregistry & Hglobals).
  destruct (update_globals_complete registry mods
              (map_to_list (_globals_to_update self))
              (NoDup_fst_map_to_list _) _ _ _ _ Hglobals) as [_ Hin].
  specialize (Hin g info ltac:(by apply elem_of_map_to_list)).
  rewrite Hregistry.
  destruct (bool_decide (name info ∈ mods)
            && bool_decide (user_ns ip !! g = Some (instance info)));
    [done|]. by rewrite <- Hinfo.
Qed.

Lemma hook_rebinds_and_records_witness :
  raised (_pre_run_cell_maybe_reload true fresh_import mutual_reloader
                                     mutual_session) = None ∧
  user_ns (ip_after (_pre_run_cell_maybe_reload true fresh_import
                       mutual_reloader mutual_session)) !! "a" = Some 11 ∧
  _globals_to_update
    (reloader (_pre_run_cell_maybe_reload true fresh_import mutual_reloader
                                          mutual_session)) !! "a"
  = Some {| name := "a"; instance := 11 |}.
Proof.
  assert (raised (_pre_run_cell_maybe_reload true fresh_import mutual_reloader
                                             mutual_session) = None)
    as Hraised by (by vm_compute).
  assert (modules_to_update
            (_pre_run_cell_maybe_reload true fresh_import mutual_reloader
                                        mutual_session) = Some ["a"; "b"])
    as Hmods by (by vm_compute).
  assert (_globals_to_update mutual_reloader !! "a"
          = Some {| name := "a"; instance := 1 |}) as Hinfo
    by (by vm_compute).
  split; [exact Hraised|].
  pose proof (hook_rebinds_and_records true fresh_import mutual_reloader
                mutual_session ["a"; "b"] "a" _ Hraised Hmods Hinfo)
    as Hrebound.
  replace (bool_decide (name {| name := "a"; instance := 1 |} ∈ ["a"; "b"])
           && bool_decide (user_ns mutual_session !! "a"
                           = Some (instance {| name := "a"; instance := 1 |})))
    with true in Hrebound by (by vm_compute).
  destruct Hrebound as (reloaded & Hreloaded & Hbound & Hrecord).
  assert (module_id reloaded = 11) as Hid.
  { assert (sys_modules (ip_after (_pre_run_cell_maybe_reload true
              fresh_import mutual_reloader mutual_session)) !! "a"
            ≫= (λ module, Some (module_id module)) = Some 11) as Hnew
      by (by vm_compute).
    cbn [name] in Hreloaded. rewrite Hreloaded in Hnew.
    by injection Hnew. }
  by rewrite Hbound, Hrecord, Hid.
Defined.

(** *** The selected modules *)

Lemma modules_reaching_sublist self mods selected :
  modules_reaching self mods = Some selected → selected `sublist_of` mods.
Proof.
  revert self selected. induction mods as [|m mods IH];
    intros self selected Hsel.
  - injection Hsel as <-. constructor.
  - cbn [modules_reaching] in Hsel.
    destruct (reaches_targets self m) as [[ret self']|]; [|done].
    cbn in Hsel.
    destruct (modules_reaching self' mods) as [rest|] eqn:Hrest; [|done].
    cbn in Hsel. injection Hsel as <-.
    specialize (IH self' rest Hrest).
    destruct ret; by constructor.
Qed.

(** X8. The list of modules that the hook hands to the import machinery
    has no duplicates: a module is imported again at most once in a
    cycle. *)
Theorem selected_modules_distinct recursive ip self
    (dirty_modules : gset string) mods :
  select_modules_to_update recursive ip self dirty_modules = Some mods →
  NoDup mods.
Proof.
  unfold select_modules_to_update. intros Hsel.
  destruct (_create_module_graph _ _) as [graph|]; [|done]. cbn in Hsel.
  apply modules_reaching_sublist in Hsel.
  eapply sublist_NoDup; [|exact Hsel]. apply NoDup_elements.
Qed.

Lemma selected_modules_distinct_witness :
  select_modules_to_update true mutual_session mutual_reloader {["a"]}
  = Some ["a"; "b"] ∧ NoDup ["a"; "b"].
Proof.
  assert (select_modules_to_update true mutual_session mutual_reloader
            {["a"]} = Some ["a"; "b"]) as Hsel by (by vm_compute).
  split; [exact Hsel|].
  exact (selected_modules_distinct true mutual_session mutual_reloader
           {["a"]} ["a"; "b"] Hsel).
Defined.

(** *** [track_globals] *)

Lemma track_global_spec is_ipython_variable
    (module_objects : gmap obj_id module) prefixes
    (tracked : gmap string _ModuleInfo) g0 value_id g :
  track_global is_ipython_variable module_objects prefixes tracked
               (g0, value_id) !! g
  = if decide (g = g0)
    then match module_objects !! value_id with
         | Some value =>
           if will_be_reloaded prefixes value
              && negb (is_ipython_variable g)
           then Some {| name := __name__ value; instance := value_id |}
           else tracked !! g
         | None => tracked !! g
         end
    else tracked !! g.
Proof.
  unfold track_global.
  destruct (decide (g = g0)) as [->|Hne].
  - destruct (module_objects !! value_id) as [value|]; [|done].
    destruct (will_be_reloaded prefixes value); cbn; [|done].
    destruct (is_ipython_variable g0); cbn; [done|].
    by rewrite lookup_insert_eq.
  - destruct (module_objects !! value_id) as [value|]; [|done].
    destruct (will_be_reloaded prefixes value); cbn; [|done].
    destruct (is_ipython_variable g0); cbn; [done|].
    by rewrite lookup_insert_ne.
Qed.

Lemma track_globals_fold is_ipython_variable
    (module_objects : gmap obj_id module) prefixes
    (globals : list (string * obj_id)) :
  NoDup globals.*1 →
  ∀ (tracked : gmap string _ModuleInfo) g,
    (g ∉ globals.*1 →
     foldl (track_global is_ipython_variable module_objects prefixes)
           tracked globals !! g = tracked !! g) ∧
    (∀ value_id, (g, value_id) ∈ globals →
       foldl (track_global is_ipython_variable module_objects prefixes)
             tracked globals !! g
       = match module_objects !! value_id with
         | Some value =>
           if will_be_reloaded prefixes value
              && negb (is_ipython_variable g)
           then Some {| name := __name__ value; instance := value_id |}
           else tracked !! g
         | None => tracked !! g
         end).
Proof.
  induction globals as [|[g0 v0] globals IH]; intros Hnd tracked g.
  - split; [done|]. intros value_id Hin. by apply elem_of_nil in Hin.
  - rewrite fmap_cons in Hnd. apply NoDup_cons in Hnd as [Hg0 Hnd].
    cbn [fst] in Hg0. cbn [foldl].
    destruct (IH Hnd
                (track_global is_ipython_variable module_objects prefixes
                              tracked (g0, v0)) g) as [IHout IHin].
    split.
    + intros Hout. rewrite fmap_cons, not_elem_of_cons in Hout.
      destruct Hout as [Hne Hout]. cbn [fst] in Hne.
      rewrite IHout by done. rewrite track_global_spec.
      by rewrite decide_False.
    + intros value_id [Heq|Hin]%elem_of_cons.
      * injection Heq as -> ->. rewrite IHout by done.
        rewrite track_global_spec. by rewrite decide_True.
      * assert (g ≠ g0) as Hne.
        { intros ->. apply Hg0. apply list_elem_of_fmap.
          by exists (g0, value_id). }
        rewrite (IHin value_id Hin). rewrite track_global_spec.
        by rewrite decide_False.
Qed.

Lemma track_globals_lookup is_ipython_variable
    (module_objects : gmap obj_id module) self ip g :
  _globals_to_update
    (track_globals is_ipython_variable module_objects self ip) !! g
  = match user_ns ip !! g with
    | Some value_id =>
      match module_objects !! value_id with
      | Some value =>
        if will_be_reloaded (reload self) value
           && negb (is_ipython_variable g)
        then Some {| name := __name__ value; instance := value_id |}
        else _globals_to_update self !! g
      | None => _globals_to_update self !! g
      end
    | None => _globals_to_update self !! g
    end.
Proof.
  cbn [track_globals _globals_to_update].
  destruct (track_globals_fold is_ipython_variable module_objects
              (reload self) (map_to_list (user_ns ip))
              (NoDup_fst_map_to_list _) (_globals_to_update self) g)
    as [Hout Hin].
  destruct (user_ns ip !! g) as [value_id|] eqn:Hg.
  - apply Hin. by apply elem_of_map_to_list.
  - apply Hout. intros ([g' v] & -> & Hin')%list_elem_of_fmap.
    apply elem_of_map_to_list in Hin'. cbn in Hg. congruence.
Qed.

(** X9. [track_globals] records a global exactly when it is bound to a
    module object whose [__name__] starts with one of the watched
    prefixes and its own name is not one that IPython keeps for itself;
    what it records is the [__name__] of the module and the very object
    that is bound. The record of any other name, bound or not, is left as
    it was. *)
Theorem track_globals_records is_ipython_variable
    (module_objects : gmap obj_id module) self ip g :
  _globals_to_update
    (track_globals is_ipython_variable module_objects self ip) !! g
  = match user_ns ip !! g with
    | Some value_id =>
      match module_objects !! value_id with
      | Some value =>
        if will_be_reloaded (reload self) value
           && negb (is_ipython_variable g)
        then Some {| name := __name__ value; instance := value_id |}
        else _globals_to_update self !! g
      | None => _globals_to_update self !! g
      end
    | None => _globals_to_update self !! g
    end.
Proof. apply track_globals_lookup. Qed.

(** X10. A module imported under [track_globals] follows its reloads. If
    a global is bound to a module object whose name starts with a watched
    prefix (and is not a name that IPython keeps for itself), then after
    [track_globals] a run of the hook that reloads this module and raises
    nothing leaves the global bound to the module object that
    [sys.modules] now holds under that name. *)
Theorem tracked_global_follows_reload is_ipython_variable
    (module_objects : gmap obj_id module) recursive adhoc_reimport
    self ip mods g value_id value :
  raised (_pre_run_cell_maybe_reload recursive adhoc_reimport
            (track_globals is_ipython_variable module_objects self ip) ip)
  = None →
  modules_to_update
    (_pre_run_cell_maybe_reload recursive adhoc_reimport
       (track_globals is_ipython_variable module_objects self ip) ip)
  = Some mods →
  user_ns ip !! g = Some value_id →
  module_objects !! value_id = Some value →
  will_be_reloaded (reload self) value = true →
  is_ipython_variable g = false →
  __name__ value ∈ mods →
  ∃ reloaded_module,
    sys_modules
      (ip_after (_pre_run_cell_maybe_reload recursive adhoc_reimport
                   (track_globals is_ipython_variable module_objects self ip)
                   ip)) !! __name__ value = Some reloaded_module ∧
    user_ns
      (ip_after (_pre_run_cell_maybe_reload recursive adhoc_reimport
                   (track_globals is_ipython_variable module_objects self ip)
                   ip)) !! g = Some (module_id reloaded_module).
Proof.
  intros Hraised Hmods Hg Hvalue Hprefix Hname Hin.
  destruct (hook_success recursive adhoc_reimport _ ip mods Hraised Hmods)
    as (registry & _ & Hregistry & Hglobals).
  destruct (update_globals_complete registry mods _
              (NoDup_fst_map_to_list _) _ _ _ _ Hglobals) as [_ Hall].
  specialize (Hall g {| name := __name__ value; instance := value_id |}).
  cbn [name instance] in Hall.
  rewrite (bool_decide_eq_true_2 _ Hin),
    (bool_decide_eq_true_2 _ Hg) in Hall. cbn [andb] in Hall.
  destruct Hall as (reloaded & Hreloaded & Hbound & _).
  { apply elem_of_map_to_list. rewrite track_globals_lookup, Hg, Hvalue.
    by rewrite Hprefix, Hname. }
  exists reloaded. by rewrite Hregistry.
Qed.

Lemma tracked_global_follows_reload_witness :
  raised (_pre_run_cell_maybe_reload true fresh_import
            (track_globals ascii_ipython_variable mutual_objects
                           untracked_reloader mutual_session)
            mutual_session) = None ∧
  ∃ reloaded_module,
    sys_modules
      (ip_after (_pre_run_cell_maybe_reload true fresh_import
                   (track_globals ascii_ipython_variable mutual_objects
                                  untracked_reloader mutual_session)
                   mutual_session)) !! "a" = Some reloaded_module ∧
    user_ns
      (ip_after (_pre_run_cell_maybe_reload true fresh_import
                   (track_globals ascii_ipython_variable mutual_objects
                                  untracked_reloader mutual_session)
                   mutual_session)) !! "a"
    = Some (module_id reloaded_module).
Proof.
  assert (raised (_pre_run_cell_maybe_reload true fresh_import
            (track_globals ascii_ipython_variable mutual_objects
                           untracked_reloader mutual_session)
            mutual_session) = None) as Hraised by (by vm_compute).
  split; [exact Hraised|].
  apply (tracked_global_follows_reload ascii_ipython_variable mutual_objects
           true fresh_import untracked_reloader mutual_session ["a"; "b"]
           "a" 1 module_a Hraised); [by vm_compute..|].
  by_evaluation.
Defined.

(** The names that [ascii_ipython_variable] takes for IPython's. *)
Example ascii_ipython_variable_examples :
  map ascii_ipython_variable ["_"; "__"; "_12"; "___7"; "_a"; "a_1"; "12"; ""]
  = [true; true; true; true; false; false; false; false].
Proof. by vm_compute. Qed.

End CellAutoreloadMore.

Module InplaceReloadMore.
Import InplaceReload InplaceReloadProofs.

(** *** Old versions of a module *)

Lemma with_attrs_with_attrs attrs attrs' o :
  with_attrs attrs (with_attrs attrs' o) = with_attrs attrs o.
Proof. done. Qed.

Lemma update_old_module_other old_module new_module h a :
  a ≠ old_module → _update_old_module old_module new_module h !! a = h !! a.
Proof.
  intros Hne. unfold _update_old_module. by rewrite !lookup_alter_ne.
Qed.

Lemma update_old_module_self old_module new_module h :
  _update_old_module old_module new_module h !! old_module
  = with_attrs (if decide (old_module = new_module) then ∅
                else namespace h new_module)
      <$> h !! old_module.
Proof.
  unfold _update_old_module. rewrite !lookup_alter_eq.
  destruct (h !! old_module) as [o|] eqn:Hold; [|done]. cbn.
  rewrite with_attrs_with_attrs, (right_id_L ∅ (∪)). do 2 f_equal.
  unfold namespace. case_decide as Heq.
  - subst new_module. by rewrite lookup_alter_eq, Hold.
  - by rewrite lookup_alter_ne.
Qed.

(** X11. [_update_old_module] replaces the namespace of the old module
    object by that of the new one and changes nothing else: the old
    module object stays the same object, and no other object is touched.
    When the old and the new module are one and the same object, its
    namespace is left empty. *)
Theorem update_old_module_effect old_module new_module h :
  (∀ a, a ≠ old_module →
        _update_old_module old_module new_module h !! a = h !! a) ∧
  _update_old_module old_module new_module h !! old_module
  = with_attrs (if decide (old_module = new_module) then ∅
                else namespace h new_module)
      <$> h !! old_module.
Proof.
  split.
  - intros a. apply update_old_module_other.
  - apply update_old_module_self.
Qed.

Lemma update_old_module_versions_lookup new_module modules :
  new_module ∉ modules →
  ∀ h a,
    update_old_module_versions new_module modules h !! a
    = if decide (a ∈ modules)
      then with_attrs (namespace h new_module) <$> h !! a
      else h !! a.
Proof.
  induction modules as [|m modules IH]; intros Hnew h a.
  - by rewrite decide_False by set_solver.
  - apply not_elem_of_cons in Hnew as [Hne Hnew].
    unfold update_old_module_versions. cbn [foldl].
    fold (update_old_module_versions new_module modules
            (_update_old_module m new_module h)).
    rewrite (IH Hnew).
    assert (namespace (_update_old_module m new_module h) new_module
            = namespace h new_module) as ->.
    { unfold namespace. by rewrite update_old_module_other. }
    destruct (decide (a = m)) as [->|Ham].
    + rewrite update_old_module_self.
      rewrite (decide_False (P := m = new_module)) by done.
      rewrite (decide_True (P := m ∈ m :: modules)) by set_solver.
      case_decide; [|done]. by destruct (h !! m).
    + rewrite update_old_module_other by done.
      destruct (decide (a ∈ modules)).
      * by rewrite decide_True by set_solver.
      * by rewrite decide_False by set_solver.
Qed.

(** X12. When the new module object is not itself among the old versions,
    the first loop of the patch pass leaves every old version that is
    still live with exactly the namespace of the new module, whatever
    number of reloads lie between them, and leaves every other object as
    it is. *)
Theorem old_versions_get_new_namespace new_module modules h a :
  new_module ∉ modules →
  update_old_module_versions new_module modules h !! a
  = if decide (a ∈ modules)
    then with_attrs (namespace h new_module) <$> h !! a
    else h !! a.
Proof. intros Hnew. by apply update_old_module_versions_lookup. Qed.

Lemma old_versions_get_new_namespace_witness :
  (6 ∉ [4]) ∧
  namespace (update_old_module_versions 6 [4] module_heap) 4
  = namespace module_heap 6.
Proof.
  assert (6 ∉ [4]) as Hnew by (by intros ?%list_elem_of_singleton).
  split; [exact Hnew|].
  unfold namespace at 1.
  rewrite (old_versions_get_new_namespace 6 [4] module_heap 4 Hnew).
  by vm_compute.
Defined.

(** *** Instances *)

Lemma retype_total old new refs :
  ∀ h,
    (∀ a o, h !! a = Some o → ob_class o = old →
            ob_setattr_raises o "__class__" new = None) →
    ∃ h',
      for_each (λ ref h,
                  if decide (ob_class <$> h !! ref = Some old)
                  then set_class ref new h else Ok tt h)
               refs h = Ok tt h'.
Proof.
  induction refs as [|ref refs IH]; intros h Haccept; [by eexists|].
  rewrite for_each_cons.
  destruct (decide (ob_class <$> h !! ref = Some old)) as [Hclass|Hclass];
    [|by apply IH].
  unfold set_class. destruct (h !! ref) as [o|] eqn:Ho; [|done].
  injection Hclass as Hclass. rewrite (Haccept ref o Ho Hclass).
  apply IH. intros a oa Ha Hold.
  destruct (decide (a = ref)) as [->|Hne].
  - rewrite lookup_insert_eq in Ha. injection Ha as <-. cbn.
    by apply (Haccept ref o).
  - rewrite lookup_insert_ne in Ha by done. by apply (Haccept a oa).
Qed.

(** X13. When no live object whose class pointer is the old class refuses
    the assignment of its class, [_update_instances] returns, and then
    every live object whose class pointer was the old class has the new
    class as its class pointer, with everything else about it unchanged,
    and every other object is as it was. *)
Theorem update_instances_effect old new h :
  (∀ a o, h !! a = Some o → ob_class o = old →
          ob_setattr_raises o "__class__" new = None) →
  ∃ h',
    _update_instances old new h = Ok tt h' ∧
    ∀ a, h' !! a =
         (λ o, if decide (ob_class o = old) then with_class new o else o)
           <$> h !! a.
Proof.
  intros Haccept.
  destruct (retype_total old new (gc_get_referrers h old) h Haccept)
    as [h' Hrun].
  exists h'. split; [exact Hrun|]. by apply update_instances_spec.
Qed.

Lemma update_instances_effect_witness :
  (∀ a o, class_versions !! a = Some o → ob_class o = 1 →
          ob_setattr_raises o "__class__" 2 = None) ∧
  ∃ h',
    _update_instances 1 2 class_versions = Ok tt h' ∧
    h' !! 5 = Some (instance_object 2 {[ "x" := 50 ]}) ∧
    h' !! 1 = class_versions !! 1.
Proof.
  assert (∀ a o, class_versions !! a = Some o → ob_class o = 1 →
                 ob_setattr_raises o "__class__" 2 = None) as Haccept.
  { intros a o Ha Hclass.
    assert (a ∈ dom class_versions) as Hdom by (apply elem_of_dom; by eexists).
    assert (dom class_versions = {[ 1; 2; 5; 11; 12; 21 ]}) as Hd
      by (by vm_compute).
    rewrite Hd in Hdom.
    repeat (apply elem_of_union in Hdom as [Hdom|Hdom]);
      apply elem_of_singleton in Hdom; subst a;
      vm_compute in Ha; injection Ha as <-; by vm_compute in Hclass |- *. }
  split; [exact Haccept|].
  destruct (update_instances_effect 1 2 class_versions Haccept)
    as (h' & Hrun & Heffect).
  exists h'. split; [exact Hrun|]. rewrite !Heffect.
  split; vm_compute; reflexivity.
Defined.

(** *** Functions and bound methods *)

Lemma for_each_app {A} (body : A → heap → result unit) l1 l2 :
  ∀ h,
    for_each body (l1 ++ l2) h
    = match for_each body l1 h with
      | Ok _ h => for_each body l2 h
      | Raise e h => Raise e h
      end.
Proof.
  induction l1 as [|x l1 IH]; intros h; [done|].
  rewrite <-app_comm_cons, !for_each_cons.
  destruct (body x h); [apply IH|done].
Qed.

Lemma getattr_insert_same_name h old o o' x name :
  h !! old = Some o → ob_mro o' = ob_mro o →
  ob_attrs o' !! name = ob_attrs o !! name →
  getattr (<[old := o']> h) x name = getattr h x name.
Proof.
  intros Hold Hmro Hattrs. apply getattr_agree.
  - destruct (decide (x = old)) as [->|Hne].
    + rewrite lookup_insert_eq, Hold. cbn. by f_equal.
    + by rewrite lookup_insert_ne.
  - intros a. destruct (decide (a = old)) as [->|Hne].
    + rewrite lookup_insert_eq, Hold. done.
    + by rewrite lookup_insert_ne.
Qed.

(** X14. [_update_function] stops at the first attribute whose assignment
    raises an exception that is neither [AttributeError] nor [TypeError],
    such as the [ValueError] of a code object with another number of free
    variables: the exception leaves the function, the attributes before
    that one have been copied as far as they could be, and that attribute
    and the ones after it are as they were. *)
Theorem update_function_stops_at_uncaught old new h o pre name post v e :
  function_attributes = pre ++ name :: post →
  h !! old = Some o →
  (∀ n w e', n ∈ pre → getattr h new n = Some w →
             ob_setattr_raises o n w = Some e' → caught e' = true) →
  getattr h new name = Some v →
  ob_setattr_raises o name v = Some e →
  caught e = false →
  ∃ o',
    _update_function old new h = Raise e (<[old := o']> h) ∧
    same_shape o o' ∧ ob_class o' = ob_class o ∧
    ∀ n, ob_attrs o' !! n =
         if decide (n ∈ pre)
         then from_option Some (ob_attrs o !! n) (copied_attr h o new n)
         else ob_attrs o !! n.
Proof.
  intros Hsplit Hold Hcaught Hv He Huncaught.
  assert (NoDup function_attributes) as Hnd by by_evaluation.
  rewrite Hsplit in Hnd. apply NoDup_app in Hnd as (Hpre & Hdisj & _).
  assert (name ∉ pre) as Hname by (intros Hin; apply (Hdisj _ Hin); by left).
  destruct (copy_attrs_spec old new pre Hpre h o Hold Hcaught)
    as (o' & Hrun & Hshape & Hclass & Hattrs).
  exists o'. split_and!; [|done..].
  unfold _update_function. rewrite Hsplit, for_each_app, Hrun, for_each_cons.
  unfold try_copy_attr.
  rewrite (getattr_insert_same_name h old o o' new name Hold).
  - rewrite Hv. unfold setattr. rewrite lookup_insert_eq.
    destruct Hshape as (_ & _ & _ & -> & _). rewrite He. cbn.
    by rewrite Huncaught.
  - apply Hshape.
  - by rewrite Hattrs, decide_False.
Qed.

Lemma update_function_stops_at_uncaught_witness :
  ∃ o',
    _update_function 1 2 two_closures
    = Raise ValueError (<[1 := o']> two_closures) ∧
    ob_attrs o' !! "__code__" = Some 11 ∧
    ob_attrs o' !! "__doc__" = Some 13.
Proof.
  destruct (update_function_stops_at_uncaught 1 2 two_closures
              (closure_object
                 {[ "__code__" := 11; "__defaults__" := 12; "__doc__" := 13;
                    "__closure__" := 14; "__globals__" := 15;
                    "__dict__" := 16 ]})
              [] "__code__"
              ["__defaults__"; "__doc__"; "__closure__"; "__globals__";
               "__dict__"]
              21 ValueError)
    as (o' & Hrun & _ & _ & Hattrs).
  - reflexivity.
  - by vm_compute.
  - intros n w e' Hin. by apply elem_of_nil in Hin.
  - by vm_compute.
  - by vm_compute.
  - reflexivity.
  - exists o'. split; [exact Hrun|]. rewrite !Hattrs.
    split; by vm_compute.
Defined.



(** *** The footprint of the dispatcher *)



(** *** Saving a module *)

Section save_module_proofs.
Context (str_value : gmap addr string) (supports_weakref : addr → bool).

Lemma save_obj_raised h module e objs0 items :
  foldl (save_obj str_value supports_weakref h module) (Some e, objs0) items = (Some e, objs0).
Proof. induction items as [|[name obj] items IH]; [done|]. exact IH. Qed.

Lemma save_obj_fold h module items :
  NoDup items.*1 →
  is_Some (getattr h module "__name__") →
  (∀ name obj, (name, obj) ∈ items →
               _belong_to_module str_value h obj module = Some true →
               _has_update_rule h obj = true →
               supports_weakref obj = true) →
  ∀ objs0,
    ∃ objs',
      foldl (save_obj str_value supports_weakref h module) (None, objs0) items = (None, objs') ∧
      ∀ name,
        objs' !! name =
        match (list_to_map items : gmap string addr) !! name with
        | Some obj =>
          if decide (_belong_to_module str_value h obj module = Some true ∧
                     _has_update_rule h obj = true)
          then Some (default [] (objs0 !! name) ++ [obj])
          else objs0 !! name
        | None => objs0 !! name
        end.
Proof.
  intros Hnd [module_name Hname].
  induction items as [|[n obj] items IH]; intros Hweak objs0.
  - exists objs0. split; [done|]. intros name. cbn [list_to_map foldr].
    by rewrite lookup_empty.
  - apply NoDup_cons in Hnd as [Hn Hnd].
    assert (∃ objs1,
              save_obj str_value supports_weakref h module (None, objs0) (n, obj) = (None, objs1) ∧
              (∀ name, name ≠ n → objs1 !! name = objs0 !! name) ∧
              objs1 !! n =
              if decide (_belong_to_module str_value h obj module = Some true ∧
                         _has_update_rule h obj = true)
              then Some (default [] (objs0 !! n) ++ [obj])
              else objs0 !! n) as (objs1 & Hstep & Hother & Hself).
    { unfold save_obj.
      destruct (_belong_to_module str_value h obj module) as [[]|] eqn:Hbelong.
      - destruct (_has_update_rule h obj) eqn:Hrule; cbn [negb].
        + rewrite (Hweak n obj) by (done || by left).
          eexists. split; [done|]. split.
          * intros name Hne. by rewrite lookup_insert_ne.
          * by rewrite lookup_insert_eq, decide_True.
        + exists objs0. split; [done|]. split; [done|].
          rewrite decide_False; [done|]. by intros [_ ?].
      - exists objs0. split; [done|]. split; [done|].
        rewrite decide_False; [done|]. by intros [? _].
      - unfold _belong_to_module in Hbelong. rewrite Hname in Hbelong.
        by destruct (getattr h obj "__module__"). }
    destruct (IH Hnd) with (objs0 := objs1) as (objs' & Hrun & Hlookup).
    { intros name obj' Hin. apply (Hweak name obj'). by right. }
    exists objs'. split; [cbn [foldl]; by rewrite Hstep|].
    intros name. rewrite Hlookup. cbn [list_to_map foldr].
    destruct (decide (name = n)) as [->|Hne].
    + rewrite lookup_insert_eq.
      rewrite (not_elem_of_list_to_map_1 items n) by done. exact Hself.
    + rewrite lookup_insert_ne by done. by rewrite Hother.
Qed.

Lemma save_obj_fold_unsupported h module items name obj :
  is_Some (getattr h module "__name__") →
  (name, obj) ∈ items →
  _belong_to_module str_value h obj module = Some true →
  _has_update_rule h obj = true →
  supports_weakref obj = false →
  ∀ objs0,
    ∃ objs',
      foldl (save_obj str_value supports_weakref h module) (None, objs0) items
      = (Some TypeError, objs').
Proof.
  intros [module_name Hname] Hin Hbelong Hrule Hweak.
  induction items as [|[n obj'] items IH]; intros objs0;
    [by apply elem_of_nil in Hin|].
  cbn [foldl].
  destruct (save_obj str_value supports_weakref h module (None, objs0) (n, obj'))
    as [[e|] objs1] eqn:Hstep.
  - exists objs1. rewrite save_obj_raised. f_equal. f_equal.
    unfold save_obj in Hstep.
    destruct (_belong_to_module str_value h obj' module) as [[]|] eqn:Hbelong'.
    + destruct (negb (_has_update_rule h obj')); [done|].
      destruct (supports_weakref obj'); congruence.
    + done.
    + unfold _belong_to_module in Hbelong'. rewrite Hname in Hbelong'.
      by destruct (getattr h obj' "__module__").
  - apply IH. apply elem_of_cons in Hin as [[= <- <-]|Hin]; [|done].
    unfold save_obj in Hstep. rewrite Hbelong, Hrule, Hweak in Hstep.
    done.
Qed.

(** X17. When weak references to the module and to every object that its
    namespace binds, that belongs to it and that has an update rule can be
    made, [save_module] returns, and then the module is the last of the
    recorded modules, after the ones that were recorded; each name the
    module binds to such an object has this object as the last of its
    recorded objects, after the ones that were recorded under the name;
    and every other name has the objects it had. *)
Theorem save_module_records self module h :
  supports_weakref module = true →
  is_Some (getattr h module "__name__") →
  (∀ name obj, namespace h module !! name = Some obj →
               _belong_to_module str_value h obj module = Some true →
               _has_update_rule h obj = true →
               supports_weakref obj = true) →
  ∃ objs',
    save_module str_value supports_weakref self module h
    = (None, {| modules := modules self ++ [module]; objs := objs' |}) ∧
    ∀ name,
      objs' !! name =
      match namespace h module !! name with
      | Some obj =>
        if decide (_belong_to_module str_value h obj module = Some true ∧
                   _has_update_rule h obj = true)
        then Some (default [] (objs self !! name) ++ [obj])
        else objs self !! name
      | None => objs self !! name
      end.
Proof.
  intros Hmodule Hname Hweak.
  destruct (save_obj_fold h module (map_to_list (namespace h module))
              (NoDup_fst_map_to_list _) Hname) with (objs0 := objs self)
    as (objs' & Hrun & Hlookup).
  { intros name obj Hin. apply (Hweak name obj).
    by apply elem_of_map_to_list. }
  exists objs'. split.
  - unfold save_module. by rewrite Hmodule, Hrun.
  - intros name. by rewrite Hlookup, list_to_map_to_list.
Qed.

(** X18. When the namespace of the module binds an object that belongs to
    it and has an update rule, such as an instance of a subclass of
    [property], and no weak reference to the object can be made,
    [save_module] raises [TypeError]; the module has been recorded by
    then. *)
Theorem save_module_unsupported self module h name obj :
  supports_weakref module = true →
  is_Some (getattr h module "__name__") →
  namespace h module !! name = Some obj →
  _belong_to_module str_value h obj module = Some true →
  _has_update_rule h obj = true →
  supports_weakref obj = false →
  ∃ objs',
    save_module str_value supports_weakref self module h
    = (Some TypeError,
       {| modules := modules self ++ [module]; objs := objs' |}).
Proof.
  intros Hmodule Hname Hbinds Hbelong Hrule Hweak.
  destruct (save_obj_fold_unsupported h module
              (map_to_list (namespace h module)) name obj Hname)
    with (objs0 := objs self) as (objs' & Hrun); [|done..|].
  { by apply elem_of_map_to_list. }
  exists objs'. unfold save_module. by rewrite Hmodule, Hrun.
Qed.

End save_module_proofs.

Lemma save_module_records_witness :
  ∃ objs',
    save_module module_strings (λ _, true) module_refs 4 module_heap
    = (None, {| modules := [5; 4]; objs := objs' |}) ∧
    objs' !! "f" = Some [8; 1] ∧
    objs' !! "C" = Some [3] ∧
    objs' !! "g" = None ∧
    objs' !! "version" = None.
Proof.
  destruct (save_module_records module_strings (λ _, true) module_refs 4
              module_heap) as (objs' & Hrun & Hlookup).
  - reflexivity.
  - vm_compute. by eexists.
  - done.
  - exists objs'. split; [exact Hrun|]. rewrite !Hlookup.
    split_and!; by vm_compute.
Defined.

Lemma save_module_unsupported_witness :
  ∃ objs',
    save_module module_strings weakref_unless_slotted module_refs 4
      slotted_property
    = (Some TypeError, {| modules := [5; 4]; objs := objs' |}).
Proof.
  apply (save_module_unsupported module_strings weakref_unless_slotted
           module_refs 4 slotted_property "p" 9).
  - reflexivity.
  - vm_compute. by eexists.
  - by vm_compute.
  - by vm_compute.
  - by vm_compute.
  - reflexivity.
Defined.

End InplaceReloadMore.
